(** * withMemorized: a keyed result cache around an asynchronous function

    Shallow embedding of [packages/memorize/src/internal/memorize.ts].

    Modelling choices, all taken from the source:
    - a JavaScript [number] is an integer, one of the two infinities, or NaN
      (timestamps of [Date.now()] are integer milliseconds; fractions are
      not modelled);
    - the cache object [memory] lives in a store of objects and the closure
      holds a reference to it, because [exportMemory] hands out the live
      object and [importMemory] adopts the caller's object;
    - a cache object is a plain object: its own properties, and the entry
      that an assignment to [__proto__] installs as its prototype (the
      accessor of [Object.prototype] stores no own property, and [delete]
      removes own properties only); the other members of [Object.prototype]
      read as non-entries, so a lookup of their names misses; own properties
      named [__proto__], which only [Object.defineProperty] or [JSON.parse]
      create, and non-extensible objects are outside the model;
    - the wrapped function [fn] is any function of its arguments, the clock
      and an environment of its own; it can fulfil or reject, let time pass
      and change its environment, but has no access to the closure;
    - calls are sequential: one operation completes before the next starts. *)

From stdpp Require Import gmap strings list fin_maps.
From Stdlib Require Import ZArith Lia.

Open Scope Z_scope.

(** ** JavaScript numbers and values *)

Inductive number : Type :=
  | Fin (z : Z)
  | PosInf
  | NegInf
  | NaN.

Inductive JsValue : Type :=
  | VUndefined
  | VNull
  | VBool (b : bool)
  | VNum (n : number)
  | VStr (s : string).

#[global] Instance number_eq_dec : EqDecision number.
Proof. solve_decision. Defined.

#[global] Instance JsValue_eq_dec : EqDecision JsValue.
Proof. solve_decision. Defined.

(** [a > b] on numbers: every comparison with NaN is false. *)
Definition gt (a b : number) : bool :=
  match a, b with
  | NaN, _ | _, NaN => false
  | Fin x, Fin y => bool_decide (y < x)
  | PosInf, PosInf => false
  | PosInf, _ => true
  | Fin _, NegInf => true
  | _, _ => false
  end.

(** [a + b] on numbers. *)
Definition add (a b : number) : number :=
  match a, b with
  | NaN, _ | _, NaN => NaN
  | Fin x, Fin y => Fin (x + y)
  | PosInf, NegInf | NegInf, PosInf => NaN
  | PosInf, _ | _, PosInf => PosInf
  | NegInf, _ | _, NegInf => NegInf
  end.

(** Truthiness of an optional numeric option ([undefined], [0] and [NaN]
    are falsy). *)
Definition truthy (o : option number) : bool :=
  match o with
  | None => false
  | Some (Fin z) => negb (bool_decide (z = 0))
  | Some NaN => false
  | Some _ => true
  end.

(** An optional number read as a number: [undefined] converts to NaN. *)
Definition toNumber (o : option number) : number := default NaN o.

(** ** Data model *)

(** [interface MemorizeOptions] *)
Record MemorizeOptions : Type := {
  ttl : option number;
  maxCacheSize : option number;
}.

(** [interface MemorizedResult<T>] *)
Record MemorizedResult : Type := {
  value : JsValue;
  expiration : number;
}.

#[global] Instance MemorizedResult_eq_dec : EqDecision MemorizedResult.
Proof. solve_decision. Defined.

(** ** Cache objects ([Record<string, MemorizedResult>])

    A plain object with entries as property values. [slots] holds its own
    properties and, under ["__proto__"], the entry installed as its
    prototype, if any: that name is never an own property, because
    assigning to it runs the setter of [Object.prototype]. *)
Record CacheObject : Type := {
  slots : gmap string MemorizedResult;
}.

Definition protoKey : string := "__proto__".

(** [o[key]], read as an entry. A key that is neither an own property nor
    ["__proto__"] with an installed prototype reads [undefined], a member of
    [Object.prototype] or a field of the installed prototype: none of them
    is an entry with a live expiration, and all of them count as absent. *)
Definition objGet (key : string) (o : CacheObject) : option MemorizedResult :=
  slots o !! key.

(** [o[key] = r]: an own property is created or overwritten; for
    ["__proto__"] the prototype is replaced by [r] instead. *)
Definition objSet (key : string) (r : MemorizedResult) (o : CacheObject) : CacheObject :=
  {| slots := <[key := r]> (slots o) |}.

(** [delete o[key]]: removes the own property [key]; ["__proto__"] is not
    an own property, so nothing is removed for it. *)
Definition objDelete (key : string) (o : CacheObject) : CacheObject :=
  if decide (key = protoKey) then o else {| slots := delete key (slots o) |}.

(** The own properties ([Object.keys(o)]). *)
Definition ownProperties (o : CacheObject) : gmap string MemorizedResult :=
  delete protoKey (slots o).

(** The map notations on cache objects stand for these three operations:
    [o !! key] is [objGet], [<[key := r]> o] is [objSet] and [delete key o]
    is [objDelete]; [size o] counts the own properties. *)
#[global] Instance CacheObject_lookup : Lookup string MemorizedResult CacheObject := objGet.
#[global] Instance CacheObject_insert : Insert string MemorizedResult CacheObject := objSet.
#[global] Instance CacheObject_delete : Delete string CacheObject := objDelete.
#[global] Instance CacheObject_empty : Empty CacheObject := {| slots := ∅ |}.
#[global] Instance CacheObject_singleton : SingletonM string MemorizedResult CacheObject :=
  λ key r, objSet key r ∅.
#[global] Instance CacheObject_size : Size CacheObject := λ o, size (ownProperties o).
#[global] Instance CacheObject_inhabited : Inhabited CacheObject := populate ∅.

#[global] Instance CacheObject_eq_dec : EqDecision CacheObject.
Proof. solve_decision. Defined.

(** References to cache objects. *)
Abbreviation loc := nat.

(** The closure variables [let memory] and [let cacheOrder]. *)
Record Closure : Type := {
  memory : loc;
  cacheOrder : list string;
}.

(** Outcome of an awaited computation. *)
Inductive Completion (A : Type) : Type :=
  | Fulfilled (v : A)
  | Rejected (reason : JsValue).
Arguments Fulfilled {A} v.
Arguments Rejected {A} reason.

(** The operations a caller can perform on one wrapper, and the passing of
    time between them. *)
Inductive Op : Type :=
  | Invoke (key : string) (args : list JsValue)
  | ImportMemory (snapshot : loc)
  | ExportMemory
  | ClearMemory
  | Elapse (d : Z).

Definition isImport (op : Op) : bool :=
  match op with
  | ImportMemory _ => true
  | _ => false
  end.

(** Operations that replace the cache object of the closure. *)
Definition resets (op : Op) : bool :=
  match op with
  | ImportMemory _ | ClearMemory => true
  | _ => false
  end.

(** Calls for [key]. *)
Definition isInvokeOf (key : string) (op : Op) : bool :=
  match op with
  | Invoke k _ => bool_decide (k = key)
  | _ => false
  end.

(** Operations that can store under [key] or replace the cache object. *)
Definition touches (key : string) (op : Op) : bool :=
  match op with
  | Invoke k _ => bool_decide (k = key)
  | ImportMemory _ | ClearMemory => true
  | _ => false
  end.

Section Wrapper.

(** What the wrapped function closes over. *)
Variable E : Type.

(** Everything outside the closure: the object store, the clock read by
    [Date.now()], the argument lists [fn] was called with (oldest first) and
    the environment of [fn]. *)
Record World : Type := {
  heap : gmap loc CacheObject;
  clock : Z;
  calls : list (list JsValue);
  env : E;
}.

(** [type InputFunctionType]: from the arguments, the clock and its
    environment to a completion, the clock at completion and the new
    environment. *)
Definition InputFunctionType : Type :=
  list JsValue → Z → E → Completion JsValue * Z * E.

(** *** The monad of closure code *)

Definition M (A : Type) : Type :=
  Closure → World → Completion A * Closure * World.

#[global] Instance M_ret : MRet M := λ A a c w, (Fulfilled a, c, w).

#[global] Instance M_bind : MBind M :=
  λ A B k m c w,
    match m c w with
    | (Fulfilled a, c', w') => k a c' w'
    | (Rejected e, c', w') => (Rejected e, c', w')
    end.

(** The world with its object store replaced. *)
Definition setHeap (h : gmap loc CacheObject) (w : World) : World :=
  {| heap := h; clock := clock w; calls := calls w; env := env w |}.

(** [Date.now()] *)
Definition dateNow : M Z := λ c w, (Fulfilled (clock w), c, w).

(** [memory[key]] *)
Definition memoryGet (key : string) : M (option MemorizedResult) :=
  λ c w, (Fulfilled (objGet key (heap w !!! memory c)), c, w).

(** [memory[key] = r] *)
Definition memorySet (key : string) (r : MemorizedResult) : M unit :=
  λ c w,
    (Fulfilled tt, c,
     setHeap (<[memory c := objSet key r (heap w !!! memory c)]> (heap w)) w).

(** [delete memory[key]] *)
Definition memoryDelete (key : string) : M unit :=
  λ c w,
    (Fulfilled tt, c,
     setHeap (<[memory c := objDelete key (heap w !!! memory c)]> (heap w)) w).

(** [memory = {}]: a new empty object is allocated. *)
Definition memoryFresh : M unit :=
  λ c w,
    let l := fresh (dom (heap w)) in
    (Fulfilled tt,
     {| memory := l; cacheOrder := cacheOrder c |},
     setHeap (<[l := ∅]> (heap w)) w).

(** [memory = o] *)
Definition memoryAssign (o : loc) : M unit :=
  λ c w, (Fulfilled tt, {| memory := o; cacheOrder := cacheOrder c |}, w).

(** the reference held in [memory] *)
Definition memoryRef : M loc := λ c w, (Fulfilled (memory c), c, w).

(** [cacheOrder.push(key)] *)
Definition orderPush (key : string) : M unit :=
  λ c w,
    (Fulfilled tt,
     {| memory := memory c; cacheOrder := cacheOrder c ++ [key] |}, w).

(** [cacheOrder.length] *)
Definition orderLength : M number :=
  λ c w, (Fulfilled (Fin (Z.of_nat (length (cacheOrder c)))), c, w).

(** [cacheOrder.shift() as string]: on an empty array [shift] gives
    [undefined], which as a property key reads ["undefined"]. *)
Definition orderShift : M string :=
  λ c w,
    match cacheOrder c with
    | k :: rest => (Fulfilled k, {| memory := memory c; cacheOrder := rest |}, w)
    | [] => (Fulfilled "undefined"%string, c, w)
    end.

(** [cacheOrder = []] *)
Definition orderReset : M unit :=
  λ c w, (Fulfilled tt, {| memory := memory c; cacheOrder := [] |}, w).

(** The world once a call of the wrapped function with [args] has completed
    at time [t], leaving environment [e]. *)
Definition called (args : list JsValue) (t : Z) (e : E) (w : World) : World :=
  {| heap := heap w; clock := t; calls := calls w ++ [args]; env := e |}.

(** [await fn(...args)], with the call recorded. *)
Definition awaitCall (fn : InputFunctionType) (args : list JsValue) : M JsValue :=
  λ c w,
    let '(r, t, e) := fn args (clock w) (env w) in
    (r, c, called args t e w).

(** *** The closure's functions *)

Variable fn : InputFunctionType.
Variable options : MemorizeOptions.

Definition getCachedResult (key : string) : M JsValue :=
  cachedResult ← memoryGet key;
  match cachedResult with
  | Some r =>
      now ← dateNow;
      if gt (expiration r) (Fin now) then mret (value r) else mret VUndefined
  | None => mret VUndefined
  end.

Definition storeInCache (key : string) (result : JsValue) : M unit :=
  now ← dateNow;
  memorySet key
    {| value := result;
       expiration := if truthy (ttl options)
                     then add (Fin now) (toNumber (ttl options))
                     else PosInf |};;
  orderPush key;;
  len ← orderLength;
  if truthy (maxCacheSize options) && gt len (toNumber (maxCacheSize options)) then
    keyToRemove ← orderShift;
    memoryDelete keyToRemove
  else mret tt.

Definition memorizedFunction (key : string) (args : list JsValue) : M JsValue :=
  cachedValue ← getCachedResult key;
  if decide (cachedValue ≠ VUndefined) then mret cachedValue
  else
    result ← awaitCall fn args;
    storeInCache key result;;
    mret result.

Definition importMemory (memoryToImport : loc) : M unit :=
  memoryAssign memoryToImport.

Definition exportMemory : M loc := memoryRef.

Definition clearMemory : M unit :=
  memoryFresh;;
  orderReset.

(** The body of [withMemorized] before its [return]: both closure variables
    are initialised, [memory] with a new empty object. *)
Definition withMemorized (w : World) : Closure * World :=
  let l := fresh (dom (heap w)) in
  ({| memory := l; cacheOrder := [] |}, setHeap (<[l := ∅]> (heap w)) w).

(** *** Drivers used in the statements *)

(** The cache object the closure currently refers to. *)
Definition cacheOf (c : Closure) (w : World) : CacheObject :=
  heap w !!! memory c.

(** Every own property of the cache is recorded in the order log. *)
Definition logged (c : Closure) (w : World) : Prop :=
  ∀ k, k ≠ protoKey → is_Some (cacheOf c w !! k) → k ∈ cacheOrder c.

(** The entry [storeInCache] writes when the clock reads [now]. *)
Definition newEntry (now : Z) (result : JsValue) : MemorizedResult :=
  {| value := result;
     expiration := if truthy (ttl options)
                   then add (Fin now) (toNumber (ttl options))
                   else PosInf |}.

(** The guard of the eviction in [storeInCache], on the log after the push. *)
Definition overflows (order : list string) : bool :=
  truthy (maxCacheSize options)
  && gt (Fin (Z.of_nat (length order))) (toNumber (maxCacheSize options)).

(** [d] milliseconds pass and nothing else happens. *)
Definition elapse (d : Z) (w : World) : World :=
  {| heap := heap w; clock := clock w + d; calls := calls w; env := env w |}.

(** [for (const [key, args] of todo) out.push(await memorizedFunction(key, ...args))]:
    the first rejection ends the sequence. *)
Fixpoint invokeEach (todo : list (string * list JsValue)) : M (list JsValue) :=
  match todo with
  | [] => mret []
  | (key, args) :: rest =>
      v ← memorizedFunction key args;
      vs ← invokeEach rest;
      mret (v :: vs)
  end.

(** One operation of a caller that catches rejections and carries on. *)
Definition runOp (op : Op) (c : Closure) (w : World) : Closure * World :=
  match op with
  | Invoke key args => let '(_, c', w') := memorizedFunction key args c w in (c', w')
  | ImportMemory s => let '(_, c', w') := importMemory s c w in (c', w')
  | ExportMemory => let '(_, c', w') := exportMemory c w in (c', w')
  | ClearMemory => let '(_, c', w') := clearMemory c w in (c', w')
  | Elapse d => (c, elapse d w)
  end.

Fixpoint runOps (ops : list Op) (c : Closure) (w : World) : Closure * World :=
  match ops with
  | [] => (c, w)
  | op :: rest => let '(c', w') := runOp op c w in runOps rest c' w'
  end.

End Wrapper.

Arguments heap {E} _.
Arguments clock {E} _.
Arguments calls {E} _.
Arguments env {E} _.
Arguments Build_World {E} _ _ _ _.
Arguments getCachedResult {E} key _ _.
Arguments storeInCache {E} options key result _ _.
Arguments memorizedFunction {E} fn options key args _ _.
Arguments importMemory {E} memoryToImport _ _.
Arguments exportMemory {E} _ _.
Arguments clearMemory {E} _ _.
Arguments withMemorized {E} w.
Arguments setHeap {E} h w.
Arguments called {E} args t e w.
Arguments cacheOf {E} c w.
Arguments logged {E} c w.
Arguments elapse {E} d w.
Arguments invokeEach {E} fn options todo _ _.
Arguments runOp {E} fn options op c w.
Arguments runOps {E} fn options ops c w.

(** ** Concrete functions and worlds for the examples *)

(** [async (num) => num * 2], taking one millisecond. *)
Definition double : InputFunctionType unit :=
  λ args t e,
    match args with
    | VNum (Fin n) :: _ => (Fulfilled (VNum (Fin (n * 2))), t + 1, e)
    | _ => (Fulfilled (VNum NaN), t + 1, e)
    end.

(** [async () => undefined] *)
Definition noResult : InputFunctionType unit :=
  λ args t e, (Fulfilled VUndefined, t + 1, e).

(** [async () => { throw "boom" }] *)
Definition failing : InputFunctionType unit :=
  λ args t e, (Rejected (VStr "boom"), t + 1, e).

(** A world with no objects at time 0. *)
Definition emptyWorld : World unit :=
  {| heap := ∅; clock := 0; calls := []; env := tt |}.

(** The options of the running example. *)
Definition ttl10 : MemorizeOptions :=
  {| ttl := Some (Fin 10); maxCacheSize := None |}.

Definition ttl10max2 : MemorizeOptions :=
  {| ttl := Some (Fin 10); maxCacheSize := Some (Fin 2) |}.

Definition two : list JsValue := [VNum (Fin 2)].

(** A newly built wrapper in the empty world: [withMemorized emptyWorld]. *)
Definition c0 : Closure := {| memory := 0%nat; cacheOrder := [] |}.

Definition w0 : World unit :=
  {| heap := {[ 0%nat := ∅ ]}; clock := 0; calls := []; env := tt |}.

(** The same wrapper around [double] after [await memorizedFunction("a", 2)]
    with [ttl: 10]: one entry, stored at time 1. *)
Definition c1 : Closure := {| memory := 0%nat; cacheOrder := ["a"%string] |}.

Definition w1 : World unit :=
  {| heap := {[ 0%nat := {[ "a"%string :=
                {| value := VNum (Fin 4); expiration := Fin 11 |} ]} ]};
     clock := 1; calls := [two]; env := tt |}.

(** The same call with [ttl: 0] leaves the entry without expiration. *)
Definition ttl0 : MemorizeOptions :=
  {| ttl := Some (Fin 0); maxCacheSize := None |}.

Definition w1never : World unit :=
  {| heap := {[ 0%nat := {[ "a"%string :=
                {| value := VNum (Fin 4); expiration := PosInf |} ]} ]};
     clock := 1; calls := [two]; env := tt |}.

(** The scenario of the test suite: [maxCacheSize: 2] and three keys. *)
Definition max2 : MemorizeOptions :=
  {| ttl := None; maxCacheSize := Some (Fin 2) |}.

Definition threeKeys : list (string * list JsValue) :=
  [("k1"%string, [VNum (Fin 2)]);
   ("k2"%string, [VNum (Fin 3)]);
   ("k3"%string, [VNum (Fin 4)])].

Definition afterThree : Completion (list JsValue) * Closure * World unit :=
  invokeEach double max2 threeKeys c0 w0.

(** The same three calls on a wrapper whose cache is empty while its order
    log still holds a key (as after it imported an empty object). *)
Definition cX : Closure := {| memory := 0%nat; cacheOrder := ["x"%string] |}.

Definition afterThreeX : Completion (list JsValue) * Closure * World unit :=
  invokeEach double max2 threeKeys cX w0.

(** A second wrapper built in [w1] that imported the first one's cache. *)
Definition cB : Closure := {| memory := 0%nat; cacheOrder := [] |}.

Definition wB : World unit :=
  {| heap := <[ 1%nat := ∅ ]> (heap w1);
     clock := 1; calls := [two]; env := tt |}.

(** ** Reading, assigning and deleting properties of a cache object *)

Section CacheObjects.

Implicit Types (o : CacheObject) (k : string) (r : MemorizedResult).

Lemma obj_lookup_empty k : (∅ : CacheObject) !! k = None.
Proof. apply (lookup_empty (M:=gmap string)). Qed.

Lemma obj_lookup_insert_eq o k r : (<[k := r]> o) !! k = Some r.
Proof. apply (lookup_insert_eq (slots o)). Qed.

Lemma obj_lookup_insert_ne o k k' r : k ≠ k' → (<[k := r]> o) !! k' = o !! k'.
Proof. apply (lookup_insert_ne (slots o)). Qed.

(** Deleting another key, or ["__proto__"], leaves a read as it was. *)
Lemma obj_lookup_delete_ne o k k' : k ≠ k' → delete k o !! k' = o !! k'.
Proof.
  intros Hne. unfold delete, CacheObject_delete, objDelete.
  destruct (decide (k = protoKey)); [done|].
  apply (lookup_delete_ne (slots o)), Hne.
Qed.

Lemma obj_lookup_delete_proto o k' : delete protoKey o !! k' = o !! k'.
Proof.
  unfold delete, CacheObject_delete, objDelete.
  by destruct (decide (protoKey = protoKey)).
Qed.

(** Deleting an own property makes its read miss. *)
Lemma obj_lookup_delete_eq o k : k ≠ protoKey → delete k o !! k = None.
Proof.
  intros Hne. unfold delete, CacheObject_delete, objDelete.
  destruct (decide (k = protoKey)); [done|].
  apply (lookup_delete_eq (slots o)).
Qed.

(** What is read after a deletion was there before it. *)
Lemma obj_lookup_delete_Some o k k' r :
  delete k o !! k' = Some r → o !! k' = Some r ∧ (k ≠ k' ∨ k = protoKey).
Proof.
  unfold delete, CacheObject_delete, objDelete.
  destruct (decide (k = protoKey)) as [->|Hne]; [by auto|].
  intros Hr. apply (lookup_delete_Some (slots o)) in Hr as [? ?]. by auto.
Qed.

(** A read of the key that was just assigned gives the assigned entry, also
    after any deletion that leaves it readable. *)
Lemma obj_lookup_delete_insert o k k' r r' :
  delete k' (<[k := r]> o) !! k = Some r' → r' = r.
Proof.
  intros Hr. apply obj_lookup_delete_Some in Hr as [Hr _].
  rewrite obj_lookup_insert_eq in Hr. congruence.
Qed.

Lemma obj_delete_insert_empty k r :
  k ≠ protoKey → delete k (<[k := r]> (∅ : CacheObject)) = ∅.
Proof.
  intros Hne. unfold delete, CacheObject_delete, objDelete.
  destruct (decide (k = protoKey)); [done|].
  unfold insert, CacheObject_insert, objSet, empty, CacheObject_empty. cbn [slots].
  f_equal. by rewrite delete_insert_eq, delete_empty.
Qed.

Lemma obj_inhabitant_lookup k : (inhabitant : CacheObject) !! k = None.
Proof. apply obj_lookup_empty. Qed.

End CacheObjects.

(** ** Equations of the closure's functions in state-passing form *)

Section Equations.

Context {E : Type}.
Implicit Types (c : Closure) (w : World E) (fn : InputFunctionType E).
Implicit Types (options : MemorizeOptions) (key : string).

Lemma getCachedResult_eq key c w :
  getCachedResult key c w =
  (Fulfilled
     match cacheOf c w !! key with
     | Some r => if gt (expiration r) (Fin (clock w)) then value r else VUndefined
     | None => VUndefined
     end, c, w).
Proof.
  unfold getCachedResult, cacheOf, mbind, M_bind, memoryGet, dateNow, mret, M_ret.
  change (objGet key (heap w !!! memory c)) with ((heap w !!! memory c) !! key).
  destruct ((heap w !!! memory c) !! key) as [r|]; [|done].
  by destruct (gt (expiration r) (Fin (clock w))).
Qed.

Lemma storeInCache_eq options key result c w :
  storeInCache options key result c w =
  let m1 := <[key := newEntry options (clock w) result]> (cacheOf c w) in
  let log1 := cacheOrder c ++ [key] in
  if overflows options log1 then
    (Fulfilled tt,
     {| memory := memory c; cacheOrder := tail log1 |},
     setHeap (<[memory c := delete (hd key log1) m1]> (heap w)) w)
  else
    (Fulfilled tt,
     {| memory := memory c; cacheOrder := log1 |},
     setHeap (<[memory c := m1]> (heap w)) w).
Proof.
  unfold storeInCache, overflows, newEntry, cacheOf, mbind, M_bind, dateNow,
    memorySet, orderPush, orderLength, orderShift, memoryDelete, mret, M_ret.
  cbn [memory cacheOrder heap clock calls env setHeap].
  destruct (truthy (maxCacheSize options) && _) eqn:Hov; [|done].
  destruct (cacheOrder c) as [|k rest]; cbn [app hd tail memory cacheOrder];
    unfold setHeap; cbn [heap clock calls env];
    by rewrite lookup_total_insert_eq, insert_insert_eq.
Qed.

Lemma memorizedFunction_cached fn options key args c w v :
  getCachedResult key c w = (Fulfilled v, c, w) →
  v ≠ VUndefined →
  memorizedFunction fn options key args c w = (Fulfilled v, c, w).
Proof.
  intros Hget Hv. unfold memorizedFunction, mbind, M_bind. rewrite Hget.
  by destruct (decide (v ≠ VUndefined)).
Qed.

Lemma memorizedFunction_rejected fn options key args c w x t e :
  getCachedResult key c w = (Fulfilled VUndefined, c, w) →
  fn args (clock w) (env w) = (Rejected x, t, e) →
  memorizedFunction fn options key args c w = (Rejected x, c, called args t e w).
Proof.
  intros Hget Hfn. unfold memorizedFunction, mbind, M_bind. rewrite Hget.
  destruct (decide (VUndefined ≠ VUndefined)) as [Hne|_]; [done|].
  unfold awaitCall. by rewrite Hfn.
Qed.

Lemma memorizedFunction_fulfilled fn options key args c w v t e :
  getCachedResult key c w = (Fulfilled VUndefined, c, w) →
  fn args (clock w) (env w) = (Fulfilled v, t, e) →
  memorizedFunction fn options key args c w =
  let '(_, c', w') := storeInCache options key v c (called args t e w) in
  (Fulfilled v, c', w').
Proof.
  intros Hget Hfn. unfold memorizedFunction, mbind, M_bind. rewrite Hget.
  destruct (decide (VUndefined ≠ VUndefined)) as [Hne|_]; [done|].
  unfold awaitCall. rewrite Hfn. rewrite storeInCache_eq. cbv zeta.
  by destruct (overflows options _).
Qed.

(** A lookup either yields a stored value or reports a miss; it never
    changes anything. *)
Lemma getCachedResult_total key c w :
  ∃ v, getCachedResult key c w = (Fulfilled v, c, w).
Proof. rewrite getCachedResult_eq. eauto. Qed.

End Equations.



(** ** Lookup, failure and import *)

Section Claims.

Context {E : Type}.
Implicit Types (c : Closure) (w : World E) (fn : InputFunctionType E).
Implicit Types (options : MemorizeOptions) (key : string).

(** C4: when the cache holds an entry for [key] whose expiration is strictly
    greater than the current time, [memorizedFunction] returns the stored
    value without calling [fn] and without touching the cache or the order
    log, provided the stored value is not [undefined]; when the stored value
    is [undefined] the call is a miss and [fn] is called. *)
Theorem invoke_valid_entry fn options key args c w r :
  cacheOf c w !! key = Some r →
  gt (expiration r) (Fin (clock w)) = true →
  (value r ≠ VUndefined →
   memorizedFunction fn options key args c w = (Fulfilled (value r), c, w)) ∧
  (value r = VUndefined →
   (memorizedFunction fn options key args c w).1.1 = (fn args (clock w) (env w)).1.1 ∧
   calls (memorizedFunction fn options key args c w).2 = calls w ++ [args]).
Proof.
  intros Hr Hlive.
  assert (Hget : getCachedResult key c w = (Fulfilled (value r), c, w)).
  { rewrite getCachedResult_eq, Hr. by rewrite Hlive. }
  split; intros Hv.
  - by apply memorizedFunction_cached.
  - rewrite Hv in Hget.
    destruct (fn args (clock w) (env w)) as [[[v|x] t] e] eqn:Hfn.
    + rewrite (memorizedFunction_fulfilled _ _ _ _ _ _ _ _ _ Hget Hfn).
      rewrite storeInCache_eq. cbv zeta.
      by destruct (overflows options _).
    + by rewrite (memorizedFunction_rejected _ _ _ _ _ _ _ _ _ Hget Hfn).
Qed.

(** C3: when the lookup misses and the awaited [fn] rejects with [x],
    [memorizedFunction] rejects with the same [x]; the closure variables and
    the whole object store, hence the cache, the order log and any entry
    already under [key], are as before the call. *)
Theorem invoke_failure_propagates fn options key args c w x t e :
  getCachedResult key c w = (Fulfilled VUndefined, c, w) →
  fn args (clock w) (env w) = (Rejected x, t, e) →
  ∃ w', memorizedFunction fn options key args c w = (Rejected x, c, w') ∧
        heap w' = heap w ∧
        cacheOf c w' = cacheOf c w ∧
        calls w' = calls w ++ [args].
Proof.
  intros Hget Hfn. exists (called args t e w).
  by rewrite (memorizedFunction_rejected _ _ _ _ _ _ _ _ _ Hget Hfn).
Qed.

(** C6: [importMemory s] makes the closure refer to the object [s] itself and
    changes nothing else: the order log and the world are as before, and a
    later lookup reads the entries of [s] and compares their stored
    expiration with the clock. *)
Theorem importMemory_replaces (s : loc) c w :
  let c' := {| memory := s; cacheOrder := cacheOrder c |} in
  importMemory s c w = (Fulfilled tt, c', w) ∧
  cacheOrder c' = cacheOrder c ∧
  cacheOf c' w = heap w !!! s ∧
  ∀ key (w2 : World E),
    getCachedResult key c' w2 =
    (Fulfilled
       match (heap w2 !!! s) !! key with
       | Some r => if gt (expiration r) (Fin (clock w2)) then value r else VUndefined
       | None => VUndefined
       end, c', w2).
Proof.
  cbv zeta. repeat split. intros key w2. by rewrite getCachedResult_eq.
Qed.

End Claims.

(** The example states are the ones the code reaches. *)
Lemma c0_w0_built : withMemorized emptyWorld = (c0, w0).
Proof. by vm_compute. Qed.

Lemma c1_w1_reached :
  memorizedFunction double ttl10 "a" two c0 w0 = (Fulfilled (VNum (Fin 4)), c1, w1).
Proof. by vm_compute. Qed.

Lemma invoke_valid_entry_witness :
  memorizedFunction double ttl10 "a" two c1 w1 = (Fulfilled (VNum (Fin 4)), c1, w1).
Proof.
  refine (proj1 (invoke_valid_entry double ttl10 "a" two c1 w1
            {| value := VNum (Fin 4); expiration := Fin 11 |} _ _) _).
  - by vm_compute.
  - by vm_compute.
  - done.
Defined.

Lemma invoke_failure_propagates_witness :
  ∃ w', memorizedFunction failing ttl10 "a" [] c1 (elapse 20 w1) =
          (Rejected (VStr "boom"), c1, w') ∧
        heap w' = heap (elapse 20 w1) ∧
        cacheOf c1 w' = cacheOf c1 (elapse 20 w1) ∧
        calls w' = calls (elapse 20 w1) ++ [[]].
Proof.
  apply (invoke_failure_propagates failing ttl10 "a" [] c1 (elapse 20 w1)
           (VStr "boom") 22 tt).
  - by vm_compute.
  - by vm_compute.
Defined.

(** ** Storing on a miss *)

Section Store.

Context {E : Type}.
Implicit Types (c : Closure) (w : World E) (fn : InputFunctionType E).
Implicit Types (options : MemorizeOptions) (key : string).

Lemma cacheOf_setHeap c c' w (m : CacheObject) :
  memory c' = memory c →
  cacheOf c' (setHeap (<[memory c := m]> (heap w)) w) = m.
Proof.
  intros Hmem. unfold cacheOf, setHeap. cbn [heap]. rewrite Hmem.
  apply lookup_total_insert_eq.
Qed.

Lemma cacheOf_elapse c w d : cacheOf c (elapse d w) = cacheOf c w.
Proof. done. Qed.

(** What a fulfilled call that missed leaves behind. *)
Lemma invoke_store fn options key args c w v c' w' :
  getCachedResult key c w = (Fulfilled VUndefined, c, w) →
  memorizedFunction fn options key args c w = (Fulfilled v, c', w') →
  let m1 := <[key := newEntry options (clock w') v]> (cacheOf c w) in
  let log1 := cacheOrder c ++ [key] in
  fn args (clock w) (env w) = (Fulfilled v, clock w', env w') ∧
  memory c' = memory c ∧
  calls w' = calls w ++ [args] ∧
  if overflows options log1
  then cacheOrder c' = tail log1 ∧ cacheOf c' w' = delete (hd key log1) m1
  else cacheOrder c' = log1 ∧ cacheOf c' w' = m1.
Proof.
  intros Hget Hrun.
  destruct (fn args (clock w) (env w)) as [[[v0|x] t] e] eqn:Hfn.
  - rewrite (memorizedFunction_fulfilled _ _ _ _ _ _ _ _ _ Hget Hfn) in Hrun.
    rewrite storeInCache_eq in Hrun. cbv zeta in *.
    change (cacheOf c (called args t e w)) with (cacheOf c w) in Hrun.
    change (clock (called args t e w)) with t in Hrun.
    change (heap (called args t e w)) with (heap w) in Hrun.
    destruct (overflows options (cacheOrder c ++ [key]));
      injection Hrun as <- <- <-; cbn [memory cacheOrder clock env calls setHeap called];
      repeat split; try done;
      by rewrite (cacheOf_setHeap c _ (called args t e w)).
  - by rewrite (memorizedFunction_rejected _ _ _ _ _ _ _ _ _ Hget Hfn) in Hrun.
Qed.

(** The entry read under the key of a fulfilled call that missed, if there
    is one, is the entry that call wrote. *)
Lemma invoke_store_entry fn options key args c w v c' w' r :
  getCachedResult key c w = (Fulfilled VUndefined, c, w) →
  memorizedFunction fn options key args c w = (Fulfilled v, c', w') →
  cacheOf c' w' !! key = Some r →
  r = newEntry options (clock w') v.
Proof.
  intros Hget Hrun Hr.
  destruct (invoke_store _ _ _ _ _ _ _ _ _ Hget Hrun) as (_ & _ & _ & Hcase).
  cbv zeta in Hcase.
  destruct (overflows options _); destruct Hcase as [_ Hm]; rewrite Hm in Hr.
  - by apply obj_lookup_delete_insert in Hr.
  - rewrite obj_lookup_insert_eq in Hr. congruence.
Qed.

(** The guard of the eviction, for an integer bound. *)
Lemma overflows_Fin options (N : Z) (order : list string) :
  maxCacheSize options = Some (Fin N) →
  overflows options order = true ↔ N ≠ 0 ∧ N < Z.of_nat (length order).
Proof.
  intros HN. unfold overflows, toNumber. rewrite HN. cbn.
  rewrite andb_true_iff, negb_true_iff, bool_decide_eq_false, bool_decide_eq_true.
  done.
Qed.

Lemma overflows_None options (order : list string) :
  maxCacheSize options = None → overflows options order = false.
Proof. intros HN. unfold overflows. by rewrite HN. Qed.

(** C2 (amended): after the insertion made by a fulfilled call that missed,
    either the front key of the order log is shifted out and [delete] is
    applied to its cache entry, or log and cache keep the insertion; with
    [maxCacheSize = N] for an integer [N] the eviction happens exactly when
    [N] is not zero and the log, with the new key appended, is longer than
    [N]; without [maxCacheSize] it never happens. After an eviction the
    front key, when it is not ["__proto__"], is no longer in the cache. *)
Theorem eviction_by_log_length fn options key args c w v c' w' :
  getCachedResult key c w = (Fulfilled VUndefined, c, w) →
  memorizedFunction fn options key args c w = (Fulfilled v, c', w') →
  let m1 := <[key := newEntry options (clock w') v]> (cacheOf c w) in
  let log1 := cacheOrder c ++ [key] in
  let evicted := cacheOrder c' = tail log1 ∧ cacheOf c' w' = delete (hd key log1) m1 in
  let kept := cacheOrder c' = log1 ∧ cacheOf c' w' = m1 in
  (evicted ∨ kept) ∧
  (∀ N : Z, maxCacheSize options = Some (Fin N) →
     evicted ↔ N ≠ 0 ∧ N < Z.of_nat (length log1)) ∧
  (maxCacheSize options = None → kept) ∧
  (evicted → hd key log1 ≠ protoKey → cacheOf c' w' !! hd key log1 = None).
Proof.
  intros Hget Hrun. cbv zeta.
  destruct (invoke_store _ _ _ _ _ _ _ _ _ Hget Hrun) as (_ & _ & _ & Hcase).
  cbv zeta in Hcase.
  assert (Hexcl : cacheOrder c' = tail (cacheOrder c ++ [key]) →
                  cacheOrder c' = cacheOrder c ++ [key] → False).
  { intros H1 H2. rewrite H2 in H1. apply (f_equal length) in H1.
    destruct (cacheOrder c ++ [key]) as [|k rest] eqn:Hlog.
    - by destruct (cacheOrder c).
    - cbn in H1. lia. }
  split; [|split; [|split]].
  - destruct (overflows options _); [by left | by right].
  - intros N HN. rewrite <- (overflows_Fin options N _ HN).
    destruct (overflows options _); split; try done.
    intros [H1 _]. destruct Hcase as [H2 _]. by destruct (Hexcl H1 H2).
  - intros HN. by rewrite (overflows_None _ _ HN) in Hcase.
  - intros [_ ->] Hfront. by apply obj_lookup_delete_eq.
Qed.

(** C1 (amended): with [ttl = t] for [t > 0] an integer number of
    milliseconds or [Infinity], when a first call misses, is fulfilled with a
    value other than [undefined] and its entry is not evicted by that same
    call, a second call for the key that starts less than [t] milliseconds
    after the entry was stored returns the same value and changes nothing,
    so over both calls [fn] ran exactly once. *)
Theorem twice_within_ttl fn options (t : number) key args args' c w v c1 w1 (d : Z) :
  ttl options = Some t →
  gt t (Fin 0) = true →
  getCachedResult key c w = (Fulfilled VUndefined, c, w) →
  memorizedFunction fn options key args c w = (Fulfilled v, c1, w1) →
  v ≠ VUndefined →
  is_Some (cacheOf c1 w1 !! key) →
  gt t (Fin d) = true →
  memorizedFunction fn options key args' c1 (elapse d w1) =
    (Fulfilled v, c1, elapse d w1) ∧
  calls (elapse d w1) = calls w ++ [args].
Proof.
  intros Httl Ht Hget Hrun Hv [r Hr] Hd.
  destruct (invoke_store _ _ _ _ _ _ _ _ _ Hget Hrun) as (_ & _ & Hcalls & _).
  split; [|done].
  pose proof (invoke_store_entry _ _ _ _ _ _ _ _ _ _ Hget Hrun Hr) as Hentry.
  apply memorizedFunction_cached; [|done].
  rewrite getCachedResult_eq, cacheOf_elapse, Hr, Hentry.
  unfold newEntry, toNumber. rewrite Httl.
  destruct t as [z| | |]; cbn in *; try done.
  apply bool_decide_eq_true in Ht, Hd.
  case_bool_decide; [lia|]. cbn.
  by rewrite bool_decide_eq_true_2 by lia.
Qed.

(** C5 (amended): when the object returned by [exportMemory] of one wrapper
    is passed to [importMemory] of a newly built wrapper and then only time
    passes, a call on the new wrapper for a key whose snapshot entry has an
    expiration strictly greater than the time of that call, and a value
    other than [undefined], returns the stored value without calling [fn]
    and without changing anything. *)
Theorem export_import_hit fn optionsB key args cA w s cA' w1 cB w2 u cB' w3 r (d : Z) :
  exportMemory cA w = (Fulfilled s, cA', w1) →
  withMemorized w1 = (cB, w2) →
  importMemory s cB w2 = (Fulfilled u, cB', w3) →
  (heap w !!! s) !! key = Some r →
  gt (expiration r) (Fin (clock w + d)) = true →
  value r ≠ VUndefined →
  memorizedFunction fn optionsB key args cB' (elapse d w3) =
    (Fulfilled (value r), cB', elapse d w3).
Proof.
  intros Hexp Hnew Himp Hr Hlive Hv.
  injection Hexp as <- <- <-. injection Hnew as <- <-. injection Himp as _ <- <-.
  assert (Hdom : memory cA ∈ dom (heap w)).
  { apply elem_of_dom. destruct (heap w !! memory cA) as [m|] eqn:Hm; [done|].
    rewrite lookup_total_alt, Hm in Hr. cbn [default from_option id] in Hr.
    by rewrite obj_inhabitant_lookup in Hr. }
  apply memorizedFunction_cached; [|done].
  rewrite getCachedResult_eq. unfold cacheOf, elapse, setHeap. cbn [heap memory clock].
  rewrite lookup_total_insert_ne.
  - by rewrite Hr, Hlive.
  - intros Heq. rewrite <- Heq in Hdom. by apply is_fresh in Hdom.
Qed.

End Store.

(** ** The claims on concrete runs *)

Lemma eviction_by_log_length_witness :
  let c := afterThree.1.2 in
  let w := afterThree.2 in
  let c' := (memorizedFunction double max2 "k4" two c w).1.2 in
  let w' := (memorizedFunction double max2 "k4" two c w).2 in
  let m1 := <["k4"%string := newEntry max2 (clock w') (VNum (Fin 4))]> (cacheOf c w) in
  let log1 := cacheOrder c ++ ["k4"%string] in
  let evicted := cacheOrder c' = tail log1 ∧
                 cacheOf c' w' = delete (hd "k4"%string log1) m1 in
  let kept := cacheOrder c' = log1 ∧ cacheOf c' w' = m1 in
  (evicted ∨ kept) ∧
  (∀ N : Z, maxCacheSize max2 = Some (Fin N) →
     evicted ↔ N ≠ 0 ∧ N < Z.of_nat (length log1)) ∧
  (maxCacheSize max2 = None → kept) ∧
  (evicted → hd "k4"%string log1 ≠ protoKey → cacheOf c' w' !! hd "k4"%string log1 = None).
Proof.
  apply (eviction_by_log_length double max2 "k4" two afterThree.1.2 afterThree.2
           (VNum (Fin 4))
           (memorizedFunction double max2 "k4" two afterThree.1.2 afterThree.2).1.2
           (memorizedFunction double max2 "k4" two afterThree.1.2 afterThree.2).2).
  - by vm_compute.
  - by vm_compute.
Defined.

(** In the run of the witness the eviction does happen: the log
    [["k2"; "k3"]] becomes [["k3"; "k4"]] and ["k2"] leaves the cache. *)
Example eviction_in_witness :
  let c := afterThree.1.2 in
  let w := afterThree.2 in
  let c' := (memorizedFunction double max2 "k4" two c w).1.2 in
  let w' := (memorizedFunction double max2 "k4" two c w).2 in
  cacheOrder c = ["k2"; "k3"]%string ∧
  cacheOrder c' = ["k3"; "k4"]%string ∧
  is_Some (cacheOf c w !! "k2"%string) ∧
  cacheOf c' w' !! "k2"%string = None.
Proof. vm_compute. repeat split; try done. by eexists. Qed.

(** C2, refuted as stated: with [maxCacheSize: 2] and [ttl: 10], the third
    store of the same key (each after the entry expired) inserts into a
    cache that then holds one entry, which does not exceed 2, and yet the
    front of the order log is shifted out and the entry just written is
    deleted. *)
Lemma eviction_counterexample :
  let '(c, w) :=
    runOps double ttl10max2
      [Invoke "a" two; Elapse 20; Invoke "a" two; Elapse 20] c0 w0 in
  let '(r, c', w') := memorizedFunction double ttl10max2 "a" two c w in
  calls w' = calls w ++ [two] ∧
  size (<["a"%string := newEntry ttl10max2 (clock w') (VNum (Fin 4))]> (cacheOf c w)) = 1%nat ∧
  cacheOrder c = ["a"; "a"]%string ∧
  cacheOrder c' = ["a"; "a"]%string ∧
  cacheOf c' w' = ∅.
Proof. by vm_compute. Qed.

Lemma twice_within_ttl_witness :
  memorizedFunction double ttl10 "a" two c1 (elapse 5 w1) =
    (Fulfilled (VNum (Fin 4)), c1, elapse 5 w1) ∧
  calls (elapse 5 w1) = calls w0 ++ [two].
Proof.
  apply (twice_within_ttl double ttl10 (Fin 10) "a" two two c0 w0 (VNum (Fin 4)) c1 w1 5).
  - reflexivity.
  - reflexivity.
  - by vm_compute.
  - exact c1_w1_reached.
  - done.
  - vm_compute. by eexists.
  - reflexivity.
Defined.

(** C1, refuted as stated: with [ttl: 1000] and a wrapped function whose
    result is [undefined], a second call 5 milliseconds after the first
    one's store calls the function again: it has run twice, not once. *)
Lemma twice_within_ttl_counterexample :
  let options := {| ttl := Some (Fin 1000); maxCacheSize := None |} in
  let '(r1, c, w) := memorizedFunction noResult options "a" [] c0 w0 in
  let '(r2, c', w') := memorizedFunction noResult options "a" [] c (elapse 5 w) in
  r1 = Fulfilled VUndefined ∧
  r2 = Fulfilled VUndefined ∧
  calls w' = [[]; []] ∧
  length (calls w') ≠ 1%nat.
Proof. by vm_compute. Qed.

Lemma export_import_hit_witness :
  memorizedFunction double ttl10 "a" two cB (elapse 5 wB) =
    (Fulfilled (VNum (Fin 4)), cB, elapse 5 wB).
Proof.
  apply (export_import_hit double ttl10 "a" two c1 w1 0%nat c1 w1
           {| memory := 1%nat; cacheOrder := [] |} wB tt cB wB
           {| value := VNum (Fin 4); expiration := Fin 11 |} 5).
  - reflexivity.
  - by vm_compute.
  - reflexivity.
  - by vm_compute.
  - by vm_compute.
  - done.
Defined.

(** C5, refuted as stated: the entry under ["a"] expires at 11 and the
    snapshot is exported at time 1, so it is not expired at export time;
    imported into a new wrapper and looked up 20 milliseconds later, it is
    stale and the wrapped function is called. *)
Lemma export_import_counterexample :
  exportMemory c1 w1 = (Fulfilled 0%nat, c1, w1) ∧
  (heap w1 !!! 0%nat) !! "a"%string =
    Some {| value := VNum (Fin 4); expiration := Fin 11 |} ∧
  gt (Fin 11) (Fin (clock w1)) = true ∧
  withMemorized w1 = ({| memory := 1%nat; cacheOrder := [] |}, wB) ∧
  importMemory 0%nat {| memory := 1%nat; cacheOrder := [] |} wB = (Fulfilled tt, cB, wB) ∧
  let '(r, c', w') := memorizedFunction double ttl10 "a" two cB (elapse 20 wB) in
  calls w' = calls wB ++ [two].
Proof. by vm_compute. Qed.

(** ** The size bound *)

Section Bound.

Context {E : Type}.
Implicit Types (c : Closure) (w : World E) (fn : InputFunctionType E).
Implicit Types (options : MemorizeOptions) (key : string).

Lemma size_le_log {A} (l : list string) (m : gmap string A) :
  (∀ k, is_Some (m !! k) → k ∈ l) → (size m ≤ length l)%nat.
Proof.
  revert m. induction l as [|a l IH]; intros m Hin.
  - assert (m = ∅) as ->; [|by rewrite map_size_empty].
    apply map_empty. intros k. destruct (m !! k) eqn:Hk; [|done].
    by destruct (not_elem_of_nil k (Hin k (mk_is_Some _ _ Hk))).
  - assert (size (delete a m) ≤ length l)%nat as Hdel.
    { apply IH. intros k [x Hk]. apply lookup_delete_Some in Hk as [Hne Hk].
      pose proof (Hin k (mk_is_Some _ _ Hk)) as Hl.
      apply elem_of_cons in Hl as [->|Hl]; done. }
    rewrite map_size_delete in Hdel. cbn [length].
    destruct (m !! a); cbn in Hdel; lia.
Qed.

Lemma obj_size_le_log (l : list string) (o : CacheObject) :
  (∀ k, k ≠ protoKey → is_Some (o !! k) → k ∈ l) → (size o ≤ length l)%nat.
Proof.
  intros Hin. unfold size, CacheObject_size, ownProperties.
  apply size_le_log. intros k [x Hk].
  apply lookup_delete_Some in Hk as [Hne Hk].
  apply Hin; [done|]. by exists x.
Qed.

Lemma elem_of_tail (l : list string) (k d : string) :
  k ∈ l → k ≠ hd d l → k ∈ tail l.
Proof.
  intros Hk Hne. destruct l as [|a l]; [done|].
  apply elem_of_cons in Hk as [->|Hk]; done.
Qed.

(** The three ways a call can go. *)
Lemma memorizedFunction_cases fn options key args c w :
  (∃ v, v ≠ VUndefined ∧
        getCachedResult key c w = (Fulfilled v, c, w) ∧
        memorizedFunction fn options key args c w = (Fulfilled v, c, w)) ∨
  (getCachedResult key c w = (Fulfilled VUndefined, c, w) ∧
   ∃ x t e, memorizedFunction fn options key args c w =
            (Rejected x, c, called args t e w)) ∨
  (getCachedResult key c w = (Fulfilled VUndefined, c, w) ∧
   ∃ v c' w', memorizedFunction fn options key args c w = (Fulfilled v, c', w')).
Proof.
  destruct (getCachedResult_total key c w) as [v Hget].
  destruct (decide (v = VUndefined)) as [->|Hv].
  - right. destruct (fn args (clock w) (env w)) as [[[v|x] t] e] eqn:Hfn.
    + right. split; [done|].
      rewrite (memorizedFunction_fulfilled _ _ _ _ _ _ _ _ _ Hget Hfn).
      destruct (storeInCache options key v c (called args t e w)) as [[u c'] w'].
      eauto.
    + left. split; [done|]. exists x, t, e.
      by apply memorizedFunction_rejected.
  - left. exists v. split; [done|]. split; [done|]. by apply memorizedFunction_cached.
Qed.

(** A call that misses runs the wrapped function once. *)
Lemma invoke_miss_calls fn options key args c w :
  getCachedResult key c w = (Fulfilled VUndefined, c, w) →
  calls (memorizedFunction fn options key args c w).2 = calls w ++ [args].
Proof.
  intros Hget.
  destruct (memorizedFunction_cases fn options key args c w)
    as [(v & Hv & Hhit & Hrun)|[(_ & x & t & e & Hrun)|(_ & v & c' & w' & Hrun)]].
  - congruence.
  - by rewrite Hrun.
  - rewrite Hrun. by destruct (invoke_store _ _ _ _ _ _ _ _ _ Hget Hrun) as (_ & _ & ? & _).
Qed.

Lemma logged_store fn options key args c w v c' w' :
  getCachedResult key c w = (Fulfilled VUndefined, c, w) →
  memorizedFunction fn options key args c w = (Fulfilled v, c', w') →
  logged c w → logged c' w'.
Proof.
  intros Hget Hrun Hlog k Hown [r Hk].
  destruct (invoke_store _ _ _ _ _ _ _ _ _ Hget Hrun) as (_ & _ & _ & Hcase).
  cbv zeta in Hcase.
  assert (Hin : ∀ k', k' ≠ protoKey →
                      is_Some ((<[key:=newEntry options (clock w') v]> (cacheOf c w)) !! k') →
                      k' ∈ cacheOrder c ++ [key]).
  { intros k' Hown' [r' Hk']. apply elem_of_app.
    destruct (decide (key = k')) as [->|Hne].
    - right. by apply list_elem_of_singleton.
    - left. rewrite obj_lookup_insert_ne in Hk' by done. apply Hlog; [done|]. by exists r'. }
  destruct (overflows options _); destruct Hcase as [-> Hm]; rewrite Hm in Hk.
  - apply obj_lookup_delete_Some in Hk as [Hk Hne].
    apply (elem_of_tail _ _ key).
    + apply Hin; [done|]. by exists r.
    + destruct Hne as [Hne|Hne]; congruence.
  - apply Hin; [done|]. by exists r.
Qed.

Lemma runOp_bounded fn options (N : Z) op c w :
  maxCacheSize options = Some (Fin N) →
  0 < N →
  isImport op = false →
  logged c w ∧ Z.of_nat (length (cacheOrder c)) ≤ N →
  logged (runOp fn options op c w).1 (runOp fn options op c w).2 ∧
  Z.of_nat (length (cacheOrder (runOp fn options op c w).1)) ≤ N.
Proof.
  intros HN Hpos Hop [Hlog Hlen].
  destruct op as [key args|s| | |d]; try discriminate Hop; cbn [runOp].
  - destruct (memorizedFunction_cases fn options key args c w)
      as [(v & Hv & _ & Hrun)|[(_ & x & t & e & Hrun)|(Hget & v & c' & w' & Hrun)]];
      rewrite Hrun; cbn [fst snd]; [done..|].
    split; [by eapply logged_store|].
    destruct (invoke_store _ _ _ _ _ _ _ _ _ Hget Hrun) as (_ & _ & _ & Hcase).
    cbv zeta in Hcase.
    destruct (overflows options (cacheOrder c ++ [key])) eqn:Hov;
      destruct Hcase as [-> _].
    + destruct (cacheOrder c) as [|k rest]; cbn [app tail length] in *; [lia|].
      rewrite length_app. cbn [length] in *. lia.
    + destruct (decide (N < Z.of_nat (length (cacheOrder c ++ [key])))) as [Hlt|Hge]; [|lia].
      assert (overflows options (cacheOrder c ++ [key]) = true) as Htrue.
      { apply (overflows_Fin options N _ HN). split; [lia|done]. }
      congruence.
  - done.
  - unfold clearMemory, mbind, M_bind, memoryFresh, orderReset.
    cbn [fst snd memory cacheOrder length]. split; [|lia].
    intros k _ [r Hk]. unfold cacheOf, setHeap in Hk. cbn [heap memory] in Hk.
    by rewrite lookup_total_insert_eq, obj_lookup_empty in Hk.
  - done.
Qed.

Lemma runOps_bounded fn options (N : Z) ops c w :
  maxCacheSize options = Some (Fin N) →
  0 < N →
  forallb (λ op, negb (isImport op)) ops = true →
  logged c w ∧ Z.of_nat (length (cacheOrder c)) ≤ N →
  logged (runOps fn options ops c w).1 (runOps fn options ops c w).2 ∧
  Z.of_nat (length (cacheOrder (runOps fn options ops c w).1)) ≤ N.
Proof.
  intros HN Hpos. revert c w.
  induction ops as [|op ops IH]; intros c w Hops Hinv; [done|].
  cbn [forallb] in Hops. apply andb_true_iff in Hops as [Hop Hops].
  apply negb_true_iff in Hop. cbn [runOps].
  pose proof (runOp_bounded fn options N op c w HN Hpos Hop Hinv) as Hstep.
  destruct (runOp fn options op c w) as [c1 w1]. by apply IH.
Qed.

Lemma withMemorized_logged w :
  logged (withMemorized w).1 (withMemorized w).2 ∧
  cacheOrder (withMemorized w).1 = [] ∧
  cacheOf (withMemorized w).1 (withMemorized w).2 = ∅.
Proof.
  unfold withMemorized, logged, cacheOf, setHeap. cbn [fst snd heap memory cacheOrder].
  rewrite lookup_total_insert_eq. split; [|done].
  intros k _ [r Hk]. by rewrite obj_lookup_empty in Hk.
Qed.


End Bound.

(** ** Filling the cache past its bound *)

Section Fill.

Context {E : Type}.
Implicit Types (c : Closure) (w : World E) (fn : InputFunctionType E).
Implicit Types (options : MemorizeOptions) (key : string).
Implicit Types (todo : list (string * list JsValue)).

Lemma invokeEach_cons fn options key args todo c w vs c' w' :
  invokeEach fn options ((key, args) :: todo) c w = (Fulfilled vs, c', w') →
  ∃ v vs' c1 w1,
    vs = v :: vs' ∧
    memorizedFunction fn options key args c w = (Fulfilled v, c1, w1) ∧
    invokeEach fn options todo c1 w1 = (Fulfilled vs', c', w').
Proof.
  cbn [invokeEach]. unfold mbind, M_bind, mret, M_ret. intros Hrun.
  destruct (memorizedFunction fn options key args c w) as [[[v|x] c1] w1]; [|done].
  destruct (invokeEach fn options todo c1 w1) as [[[vs'|x] c2] w2] eqn:Hrest; [|done].
  injection Hrun as <- <- <-. by exists v, vs', c1, w1.
Qed.

Lemma invokeEach_snoc fn options todo key args c w vs c' w' :
  invokeEach fn options (todo ++ [(key, args)]) c w = (Fulfilled vs, c', w') →
  ∃ vs' v c1 w1,
    vs = vs' ++ [v] ∧
    invokeEach fn options todo c w = (Fulfilled vs', c1, w1) ∧
    memorizedFunction fn options key args c1 w1 = (Fulfilled v, c', w').
Proof.
  revert c w vs. induction todo as [|[k a] todo IH]; intros c w vs Hrun.
  - apply invokeEach_cons in Hrun as (v & vs' & c1 & w1 & -> & Hcall & Hrest).
    injection Hrest as <- <- <-. by exists [], v, c, w.
  - cbn [app] in Hrun.
    apply invokeEach_cons in Hrun as (v & vs' & c1 & w1 & -> & Hcall & Hrest).
    apply IH in Hrest as (vs'' & v' & c2 & w2 & -> & Hrest & Hlast).
    exists (v :: vs''), v', c2, w2. split; [done|]. split; [|done].
    cbn [invokeEach]. unfold mbind, M_bind, mret, M_ret. by rewrite Hcall, Hrest.
Qed.

Lemma miss_of_absent key c w :
  cacheOf c w !! key = None →
  getCachedResult key c w = (Fulfilled VUndefined, c, w).
Proof. intros Hr. by rewrite getCachedResult_eq, Hr. Qed.

(** New keys stored one after the other from a log [L]: the cache reads only
    keys stored so far, and the log is the end of [L] followed by the stored
    keys, cut to the bound. *)
Lemma invokeEach_stores fn options (N : nat) (L : list string) todo :
  maxCacheSize options = Some (Fin (Z.of_nat N)) →
  (0 < N)%nat →
  ∀ (stored : list string) c w vs c' w',
    (∀ k, is_Some (cacheOf c w !! k) → k ∈ stored) →
    NoDup (stored ++ todo.*1) →
    (∃ pre, L ++ stored = pre ++ cacheOrder c) →
    length (cacheOrder c) = (N `min` (length L + length stored))%nat →
    invokeEach fn options todo c w = (Fulfilled vs, c', w') →
    (∀ k, is_Some (cacheOf c' w' !! k) → k ∈ stored ++ todo.*1) ∧
    (∃ pre, L ++ stored ++ todo.*1 = pre ++ cacheOrder c') ∧
    length (cacheOrder c') =
      (N `min` (length L + length (stored ++ todo.*1)))%nat.
Proof.
  intros HN Hpos.
  induction todo as [|[k a] todo IH]; intros stored c w vs c' w' Hkeys Hnd Hpre Hlen Hrun.
  - injection Hrun as <- <- <-. cbn [fmap list_fmap]. by rewrite !app_nil_r.
  - apply invokeEach_cons in Hrun as (v & vs' & c1 & w1 & -> & Hcall & Hrest).
    cbn [fmap list_fmap fst] in *.
    change (list_fmap _ _ fst todo) with (todo.*1) in *.
    assert (Hk : k ∉ stored).
    { apply NoDup_app in Hnd as (_ & Hdisj & _). intros Hin.
      apply (Hdisj k Hin). apply elem_of_cons. by left. }
    assert (Hget : getCachedResult k c w = (Fulfilled VUndefined, c, w)).
    { apply miss_of_absent. destruct (cacheOf c w !! k) as [r|] eqn:Hr; [|done].
      by destruct (Hk (Hkeys k (mk_is_Some _ _ Hr))). }
    destruct (invoke_store _ _ _ _ _ _ _ _ _ Hget Hcall) as (_ & _ & _ & Hcase).
    cbv zeta in Hcase.
    assert (Hin : ∀ k', is_Some ((<[k:=newEntry options (clock w1) v]> (cacheOf c w)) !! k') →
                        k' ∈ stored ++ [k]).
    { intros k' [r' Hk']. apply elem_of_app.
      destruct (decide (k = k')) as [->|Hne].
      - right. by apply list_elem_of_singleton.
      - left. rewrite obj_lookup_insert_ne in Hk' by done. apply Hkeys. by exists r'. }
    destruct Hpre as [pre Hpre].
    replace (stored ++ k :: todo.*1) with ((stored ++ [k]) ++ todo.*1)
      by (by rewrite <- app_assoc).
    replace (L ++ (stored ++ [k]) ++ todo.*1) with (L ++ (stored ++ [k]) ++ todo.*1) by done.
    destruct (overflows options (cacheOrder c ++ [k])) eqn:Hov.
    + apply (overflows_Fin options _ _ HN) in Hov as [_ Hov].
      rewrite length_app in Hov. cbn [length] in Hov.
      destruct Hcase as [Hord Hm].
      destruct (cacheOrder c) as [|f rest] eqn:Hlog; cbn [length] in *; [lia|].
      cbn [app tail hd] in Hord, Hm.
      apply (IH (stored ++ [k]) c1 w1 vs'); [| |exists (pre ++ [f])| |done].
      * intros k' [r' Hk']. rewrite Hm in Hk'.
        apply obj_lookup_delete_Some in Hk' as [Hk' _]. apply Hin. by exists r'.
      * by rewrite <- app_assoc.
      * rewrite Hord, app_assoc, Hpre, <- !app_assoc. done.
      * rewrite Hord, !length_app. cbn [length]. lia.
    + assert (¬ (Z.of_nat N < Z.of_nat (length (cacheOrder c ++ [k])))) as Hfit.
      { intros Hlt.
        assert (overflows options (cacheOrder c ++ [k]) = true) as Htrue; [|congruence].
        apply (overflows_Fin options _ _ HN). split; [lia|done]. }
      rewrite length_app in Hfit. cbn [length] in Hfit.
      destruct Hcase as [Hord Hm].
      apply (IH (stored ++ [k]) c1 w1 vs'); [| |exists pre| |done].
      * intros k' Hk'. rewrite Hm in Hk'. by apply Hin.
      * by rewrite <- app_assoc.
      * rewrite Hord, app_assoc, Hpre, <- !app_assoc. done.
      * rewrite Hord, !length_app. cbn [length]. lia.
Qed.


Lemma storeInCache_ttl_zero (m : option number) key result c w :
  storeInCache {| ttl := Some (Fin 0); maxCacheSize := m |} key result c w =
  storeInCache {| ttl := None; maxCacheSize := m |} key result c w.
Proof. by rewrite !storeInCache_eq. Qed.

(** C9: with [ttl: 0] every call does exactly what it does without [ttl];
    the entry a fulfilled call that missed leaves under its key has
    expiration [Infinity], and however much time passes afterwards a lookup
    of the key still returns the stored value. *)
Theorem ttl_zero_never_expires fn (m : option number) key args c w :
  let options := {| ttl := Some (Fin 0); maxCacheSize := m |} in
  memorizedFunction fn options key args c w =
    memorizedFunction fn {| ttl := None; maxCacheSize := m |} key args c w ∧
  ∀ v c' w' r,
    getCachedResult key c w = (Fulfilled VUndefined, c, w) →
    memorizedFunction fn options key args c w = (Fulfilled v, c', w') →
    cacheOf c' w' !! key = Some r →
    r = {| value := v; expiration := PosInf |} ∧
    ∀ d : Z, getCachedResult key c' (elapse d w') = (Fulfilled v, c', elapse d w').
Proof.
  cbv zeta. split.
  - unfold memorizedFunction, mbind, M_bind.
    destruct (getCachedResult key c w) as [[[v|x] c1] w1]; [|done].
    destruct (decide (v ≠ VUndefined)); [done|].
    destruct (awaitCall E fn args c1 w1) as [[[v'|x] c2] w2]; [|done].
    by rewrite storeInCache_ttl_zero.
  - intros v c' w' r Hget Hrun Hr.
    destruct (invoke_store _ _ _ _ _ _ _ _ _ Hget Hrun) as (_ & _ & _ & Hcase).
    cbv zeta in Hcase.
    pose proof (invoke_store_entry _ _ _ _ _ _ _ _ _ _ Hget Hrun Hr) as Hentry.
    change (r = {| value := v; expiration := PosInf |}) in Hentry.
    split; [done|]. intros d.
    rewrite getCachedResult_eq, cacheOf_elapse, Hr, Hentry. done.
Qed.

End Fill.

(** C10: with [maxCacheSize: 1] and [ttl: 10], once ["a"] is stored and has
    expired, the log is [["a"]], of length 1, with ["a"] its oldest key; the
    next call for ["a"] computes a new value and returns it, appends a second
    ["a"] to the log, shifts the first out and deletes the entry just
    written: the cache does not contain ["a"] when the call completes. *)
Theorem self_eviction :
  ∃ (options : MemorizeOptions) (N : Z) (ops : list Op) (key : string)
    (args : list JsValue),
    maxCacheSize options = Some (Fin N) ∧ 0 < N ∧
    let '(c, w) := runOps double options ops c0 w0 in
    let '(r, c', w') := memorizedFunction double options key args c w in
    hd_error (cacheOrder c) = Some key ∧
    Z.of_nat (length (cacheOrder c)) = N ∧
    is_Some (cacheOf c w !! key) ∧
    r = Fulfilled (VNum (Fin 4)) ∧
    calls w' = calls w ++ [args] ∧
    cacheOrder c' = tail (cacheOrder c ++ [key]) ∧
    cacheOf c' w' !! key = None.
Proof.
  exists {| ttl := Some (Fin 10); maxCacheSize := Some (Fin 1) |}, 1,
    [Invoke "a" two; Elapse 20], "a"%string, two.
  vm_compute. repeat split; try done. by eexists.
Qed.




Lemma ttl_zero_never_expires_witness :
  {| value := VNum (Fin 4); expiration := PosInf |} =
    {| value := VNum (Fin 4); expiration := PosInf |} ∧
  ∀ d : Z, getCachedResult "a" c1 (elapse d w1never) =
           (Fulfilled (VNum (Fin 4)), c1, elapse d w1never).
Proof.
  refine (proj2 (ttl_zero_never_expires double None "a" two c0 w0)
            (VNum (Fin 4)) c1 w1never _ _ _ _).
  - by vm_compute.
  - by vm_compute.
  - by vm_compute.
Defined.

(** ** The scenarios of the repository's test suite, run on the model *)

(** 'should not exceed max cache size': after ["k1"], ["k2"], ["k3"] with
    [maxCacheSize: 2], the calls for ["k3"] and ["k2"] are served from the
    cache and the call for ["k1"] recomputes: four calls of [double] in
    all. *)
Example test_max_cache_size :
  let '(r, c, w) :=
    invokeEach double max2
      (threeKeys ++ [("k3"%string, [VNum (Fin 4)]);
                     ("k2"%string, [VNum (Fin 3)]);
                     ("k1"%string, [VNum (Fin 2)])]) c0 w0 in
  r = Fulfilled [VNum (Fin 4); VNum (Fin 6); VNum (Fin 8);
                 VNum (Fin 8); VNum (Fin 6); VNum (Fin 4)] ∧
  length (calls w) = 4%nat.
Proof. by vm_compute. Qed.

(** 'should recompute the result if TTL has expired': [ttl: 10] and a wait
    of 20 milliseconds between two calls for the same key. *)
Example test_ttl_expired :
  let '(c, w) := runOps double ttl10 [Invoke "key1" two; Elapse 20] c0 w0 in
  let '(r, _, w') := memorizedFunction double ttl10 "key1" two c w in
  r = Fulfilled (VNum (Fin 4)) ∧ length (calls w') = 2%nat.
Proof. by vm_compute. Qed.

(** 'should clear the memory': a call after [clearMemory] recomputes. *)
Example test_clear_memory :
  let none := {| ttl := None; maxCacheSize := None |} in
  let '(c, w) := runOps double none [Invoke "key1" two; ClearMemory] c0 w0 in
  let '(r, _, w') := memorizedFunction double none "key1" two c w in
  r = Fulfilled (VNum (Fin 4)) ∧ length (calls w') = 2%nat.
Proof. by vm_compute. Qed.

(** ** Expiry, rejection and clearing *)

Section Expiry.

Context {E : Type}.
Implicit Types (c : Closure) (w : World E) (fn : InputFunctionType E).
Implicit Types (options : MemorizeOptions) (key : string).

(** An expiration that is not in the future stays so as the clock moves on. *)
Lemma gt_expired_later (x : number) (a b : Z) :
  gt x (Fin a) = false → a ≤ b → gt x (Fin b) = false.
Proof.
  destruct x as [z| | |]; cbn; try done.
  rewrite !bool_decide_eq_false. lia.
Qed.

Lemma miss_later key c w (w2 : World E) :
  heap w2 = heap w →
  clock w ≤ clock w2 →
  getCachedResult key c w = (Fulfilled VUndefined, c, w) →
  getCachedResult key c w2 = (Fulfilled VUndefined, c, w2).
Proof.
  intros Hheap Hclock. rewrite !getCachedResult_eq. unfold cacheOf. rewrite Hheap.
  destruct ((heap w !!! memory c) !! key) as [r|]; [|done].
  destruct (gt (expiration r) (Fin (clock w))) eqn:Hlive.
  - intros [= Hv]. rewrite Hv. by destruct (gt (expiration r) (Fin (clock w2))).
  - intros _. by rewrite (gt_expired_later _ _ _ Hlive Hclock).
Qed.

(** X2: the lookup of a key that misses keeps missing while only time passes:
    an entry that is absent, expired or holds [undefined] is never revived by
    waiting. *)
Theorem miss_persists key c w (d : Z) :
  0 ≤ d →
  getCachedResult key c w = (Fulfilled VUndefined, c, w) →
  getCachedResult key c (elapse d w) = (Fulfilled VUndefined, c, elapse d w).
Proof.
  intros Hd. apply miss_later; [done|]. cbn. lia.
Qed.

(** X3: a rejection is not remembered: when a call missed and the wrapped
    function rejected, the next call for the key, whatever its arguments and
    however long after, runs the wrapped function again. *)
Theorem rejection_retried fn options key args args' c w x t e (d : Z) :
  getCachedResult key c w = (Fulfilled VUndefined, c, w) →
  fn args (clock w) (env w) = (Rejected x, t, e) →
  clock w ≤ t →
  0 ≤ d →
  ∃ w1, memorizedFunction fn options key args c w = (Rejected x, c, w1) ∧
        calls (memorizedFunction fn options key args' c (elapse d w1)).2 =
        calls w ++ [args; args'].
Proof.
  intros Hget Hfn Ht Hd. exists (called args t e w). split.
  - by apply memorizedFunction_rejected.
  - rewrite invoke_miss_calls.
    + cbn. by rewrite <- app_assoc.
    + apply (miss_later key c w); [done| |done]. cbn. lia.
Qed.

(** X1: with [ttl = t] for an integer [t ≠ 0], once a call has stored a result
    at some time, a call for the same key that starts [t] milliseconds or
    more after that time runs the wrapped function again. *)
Theorem expired_recomputes fn options (t : Z) key args args' c w v c1 w1 (d : Z) :
  ttl options = Some (Fin t) →
  t ≠ 0 →
  getCachedResult key c w = (Fulfilled VUndefined, c, w) →
  memorizedFunction fn options key args c w = (Fulfilled v, c1, w1) →
  t ≤ d →
  calls (memorizedFunction fn options key args' c1 (elapse d w1)).2 =
  calls w ++ [args; args'].
Proof.
  intros Httl Ht Hget Hrun Hd.
  destruct (invoke_store _ _ _ _ _ _ _ _ _ Hget Hrun) as (_ & _ & Hcalls & Hcase).
  cbv zeta in Hcase.
  rewrite invoke_miss_calls.
  { cbn. by rewrite Hcalls, <- app_assoc. }
  rewrite getCachedResult_eq, cacheOf_elapse.
  destruct (cacheOf c1 w1 !! key) as [r|] eqn:Hr; [|done].
  pose proof (invoke_store_entry _ _ _ _ _ _ _ _ _ _ Hget Hrun Hr) as Hentry.
  rewrite Hentry. unfold newEntry, toNumber. rewrite Httl. cbn.
  case_bool_decide; [done|]. cbn.
  by rewrite bool_decide_eq_false_2 by lia.
Qed.

Lemma clearMemory_empty c w :
  cacheOf (clearMemory c w).1.2 (clearMemory c w).2 = ∅ ∧
  cacheOrder (clearMemory c w).1.2 = [].
Proof.
  unfold clearMemory, mbind, M_bind, memoryFresh, orderReset, cacheOf, setHeap.
  cbn [fst snd memory cacheOrder heap]. split; [|done].
  apply lookup_total_insert_eq.
Qed.

(** X4: [clearMemory] leaves the closure with an empty cache and an empty order
    log, so the next call for any key, at any time, runs the wrapped
    function. *)
Theorem clear_then_recomputes fn options c w :
  let cleared := clearMemory c w in
  cleared.1.1 = Fulfilled tt ∧
  cacheOf cleared.1.2 cleared.2 = ∅ ∧
  cacheOrder cleared.1.2 = [] ∧
  ∀ key args (d : Z),
    calls (memorizedFunction fn options key args cleared.1.2 (elapse d cleared.2)).2 =
    calls w ++ [args].
Proof.
  cbv zeta. unfold clearMemory, mbind, M_bind, memoryFresh, orderReset.
  cbn [fst snd memory cacheOrder].
  assert (Hempty : ∀ o, cacheOf {| memory := fresh (dom (heap w)); cacheOrder := o |}
                          (setHeap (<[fresh (dom (heap w)) := ∅]> (heap w)) w) = ∅).
  { intros o. unfold cacheOf, setHeap. cbn [heap memory].
    apply lookup_total_insert_eq. }
  repeat split; [apply Hempty|].
  intros key args d. rewrite invoke_miss_calls; [done|].
  rewrite getCachedResult_eq, cacheOf_elapse, Hempty. by rewrite obj_lookup_empty.
Qed.

(** X5: [clearMemory] abandons the cache object, it does not empty it: an object
    handed out earlier by [exportMemory] still holds every entry after the
    wrapper has been cleared. *)
Theorem clear_keeps_exported c w (s : loc) c' w' :
  memory c ∈ dom (heap w) →
  exportMemory c w = (Fulfilled s, c', w') →
  let cleared := clearMemory c' w' in
  heap cleared.2 !!! s = cacheOf c w ∧
  memory cleared.1.2 ≠ s ∧
  cacheOf cleared.1.2 cleared.2 = ∅.
Proof.
  intros Hdom Hexp. injection Hexp as <- <- <-. cbv zeta.
  unfold clearMemory, mbind, M_bind, memoryFresh, orderReset, cacheOf, setHeap.
  cbn [fst snd memory cacheOrder heap].
  assert (Hne : fresh (dom (heap w)) ≠ memory c).
  { intros Heq. rewrite <- Heq in Hdom. by apply is_fresh in Hdom. }
  split; [|split].
  - by rewrite lookup_total_insert_ne.
  - done.
  - apply lookup_total_insert_eq.
Qed.

End Expiry.

(** ** What a call can and cannot change *)

Section Frame.

Context {E : Type}.
Implicit Types (c : Closure) (w : World E) (fn : InputFunctionType E).
Implicit Types (options : MemorizeOptions) (key : string).

(** A call keeps the closure's reference and writes at most to the object it
    refers to. *)
Lemma invoke_heap fn options key args c w :
  memory (memorizedFunction fn options key args c w).1.2 = memory c ∧
  (heap (memorizedFunction fn options key args c w).2 = heap w ∨
   ∃ m, heap (memorizedFunction fn options key args c w).2 =
        <[memory c := m]> (heap w)).
Proof.
  destruct (getCachedResult_total key c w) as [v0 Hget].
  destruct (decide (v0 = VUndefined)) as [->|Hv].
  - destruct (fn args (clock w) (env w)) as [[[v|x] t] e] eqn:Hfn.
    + rewrite (memorizedFunction_fulfilled _ _ _ _ _ _ _ _ _ Hget Hfn).
      rewrite storeInCache_eq. cbv zeta.
      destruct (overflows options _); cbn [fst snd memory heap setHeap called];
        (split; [done|right; eauto]).
    + rewrite (memorizedFunction_rejected _ _ _ _ _ _ _ _ _ Hget Hfn).
      split; [done|by left].
  - rewrite (memorizedFunction_cached _ _ _ _ _ _ _ Hget Hv). split; [done|by left].
Qed.

Lemma invoke_other_keys fn options key args c w (k : string) :
  k ≠ key →
  k ≠ hd key (cacheOrder c ++ [key]) →
  cacheOf (memorizedFunction fn options key args c w).1.2
          (memorizedFunction fn options key args c w).2 !! k =
  cacheOf c w !! k.
Proof.
  intros Hkey Hfront.
  destruct (memorizedFunction_cases fn options key args c w)
    as [(v & _ & _ & Hrun)|[(_ & x & t & e & Hrun)|(Hget & v & c' & w' & Hrun)]];
    rewrite Hrun; cbn [fst snd]; [done..|].
  destruct (invoke_store _ _ _ _ _ _ _ _ _ Hget Hrun) as (_ & _ & _ & Hcase).
  cbv zeta in Hcase.
  destruct (overflows options _); destruct Hcase as [_ ->].
  - rewrite obj_lookup_delete_ne, obj_lookup_insert_ne by done. done.
  - by rewrite obj_lookup_insert_ne.
Qed.

(** X6: a call disturbs at most two keys of the cache, its own key and the key
    at the front of the order log: every other entry is as before, whether
    the call hits, stores, evicts or rejects, and the closure still refers to
    the same cache object. *)
Theorem invoke_frame fn options key args c w (k : string) :
  k ≠ key →
  k ≠ hd key (cacheOrder c ++ [key]) →
  memory (memorizedFunction fn options key args c w).1.2 = memory c ∧
  cacheOf (memorizedFunction fn options key args c w).1.2
          (memorizedFunction fn options key args c w).2 !! k =
  cacheOf c w !! k.
Proof.
  intros Hkey Hfront. split.
  - apply invoke_heap.
  - by apply invoke_other_keys.
Qed.

Lemma runOp_unlogged fn options (k : string) op c w :
  touches k op = false →
  k ∉ cacheOrder c →
  (k ∉ cacheOrder (runOp fn options op c w).1) ∧
  memory (runOp fn options op c w).1 = memory c ∧
  cacheOf (runOp fn options op c w).1 (runOp fn options op c w).2 !! k =
  cacheOf c w !! k.
Proof.
  intros Hop Hk.
  destruct op as [key args|s| | |d]; try discriminate Hop; cbn [runOp touches] in *;
    [|done..].
  apply bool_decide_eq_false in Hop.
  assert (Hfront : k ≠ hd key (cacheOrder c ++ [key])).
  { destruct (cacheOrder c) as [|a l]; cbn; [congruence|].
    intros ->. apply Hk. apply elem_of_cons. by left. }
  pose proof (invoke_other_keys fn options key args c w k ltac:(congruence) Hfront) as Hsame.
  pose proof (invoke_heap fn options key args c w) as [Hmem _].
  destruct (memorizedFunction_cases fn options key args c w)
    as [(v & _ & _ & Hrun)|[(_ & x & t & e & Hrun)|(Hget & v & c' & w' & Hrun)]];
    rewrite Hrun in *; cbn [fst snd] in *; [done..|].
  split; [|done].
  destruct (invoke_store _ _ _ _ _ _ _ _ _ Hget Hrun) as (_ & _ & _ & Hcase).
  cbv zeta in Hcase.
  assert (Hlog1 : k ∉ cacheOrder c ++ [key]).
  { intros Hin. apply elem_of_app in Hin as [Hin|Hin]; [done|].
    apply list_elem_of_singleton in Hin. congruence. }
  destruct (overflows options _); destruct Hcase as [-> _]; [|done].
  intros Hin. apply Hlog1. destruct (cacheOrder c ++ [key]) as [|a l]; [done|].
  apply elem_of_cons. by right.
Qed.

(** X7: an entry whose key is not in the order log, such as one brought in by
    [importMemory], is out of reach of the eviction: as long as that key is
    not called and the cache is neither cleared nor replaced, the entry stays
    exactly as it is, whatever [maxCacheSize] says. *)
Theorem unlogged_entry_survives fn options (k : string) (ops : list Op) c w :
  k ∉ cacheOrder c →
  forallb (λ op, negb (touches k op)) ops = true →
  cacheOf (runOps fn options ops c w).1 (runOps fn options ops c w).2 !! k =
  cacheOf c w !! k.
Proof.
  revert c w. induction ops as [|op ops IH]; intros c w Hk Hops; [done|].
  cbn [forallb] in Hops. apply andb_true_iff in Hops as [Hop Hops].
  apply negb_true_iff in Hop. cbn [runOps].
  destruct (runOp_unlogged fn options k op c w Hop Hk) as (Hk1 & _ & Hsame).
  destruct (runOp fn options op c w) as [c1 w1]. cbn [fst snd] in *.
  by rewrite IH.
Qed.

Lemma overflows_falsy options (order : list string) :
  truthy (maxCacheSize options) = false → overflows options order = false.
Proof. intros Hmax. unfold overflows. by rewrite Hmax. Qed.

Lemma runOp_keeps fn options (k : string) op c w :
  truthy (maxCacheSize options) = false →
  resets op = false →
  is_Some (cacheOf c w !! k) →
  is_Some (cacheOf (runOp fn options op c w).1 (runOp fn options op c w).2 !! k).
Proof.
  intros Hmax Hop Hk.
  destruct op as [key args|s| | |d]; try discriminate Hop; cbn [runOp]; [|done..].
  destruct (memorizedFunction_cases fn options key args c w)
    as [(v & _ & _ & Hrun)|[(_ & x & t & e & Hrun)|(Hget & v & c' & w' & Hrun)]];
    rewrite Hrun; cbn [fst snd]; [done..|].
  destruct (invoke_store _ _ _ _ _ _ _ _ _ Hget Hrun) as (_ & _ & _ & Hcase).
  cbv zeta in Hcase. rewrite (overflows_falsy _ _ Hmax) in Hcase.
  destruct Hcase as [_ ->].
  destruct (decide (key = k)) as [->|Hne].
  - rewrite obj_lookup_insert_eq. by eexists.
  - by rewrite obj_lookup_insert_ne.
Qed.

(** X8: when [maxCacheSize] is absent, [0] or [NaN], the guard of the eviction
    is falsy and nothing is ever removed: a key that is in the cache, expired
    or not, is still in it after any sequence of calls, exports and waiting;
    only [clearMemory] and [importMemory] drop it. *)
Theorem no_bound_never_removes fn options (k : string) (ops : list Op) c w :
  truthy (maxCacheSize options) = false →
  forallb (λ op, negb (resets op)) ops = true →
  is_Some (cacheOf c w !! k) →
  is_Some (cacheOf (runOps fn options ops c w).1 (runOps fn options ops c w).2 !! k).
Proof.
  intros Hmax. revert c w. induction ops as [|op ops IH]; intros c w Hops Hk; [done|].
  cbn [forallb] in Hops. apply andb_true_iff in Hops as [Hop Hops].
  apply negb_true_iff in Hop. cbn [runOps].
  pose proof (runOp_keeps fn options k op c w Hmax Hop Hk) as Hk1.
  destruct (runOp fn options op c w) as [c1 w1]. by apply IH.
Qed.

Lemma runOp_memory fn options op c w :
  resets op = false →
  memory (runOp fn options op c w).1 = memory c.
Proof.
  intros Hop. destruct op as [key args|s| | |d]; try discriminate Hop; cbn [runOp];
    [|done..].
  pose proof (invoke_heap fn options key args c w) as [Hmem _].
  by destruct (memorizedFunction fn options key args c w) as [[r c'] w'].
Qed.

(** X9: [exportMemory] hands out the cache object itself, not a copy: after any
    later calls and waiting, the object read through the exported reference
    is the wrapper's current cache, with every store and eviction made since
    the export. *)
Theorem export_is_live fn options (ops : list Op) c w (s : loc) c' w' :
  exportMemory c w = (Fulfilled s, c', w') →
  forallb (λ op, negb (resets op)) ops = true →
  heap (runOps fn options ops c' w').2 !!! s =
  cacheOf (runOps fn options ops c' w').1 (runOps fn options ops c' w').2.
Proof.
  intros Hexp Hops. injection Hexp as <- <- <-.
  assert (Hmem : memory (runOps fn options ops c w).1 = memory c);
    [|by unfold cacheOf; rewrite Hmem].
  revert c w. induction ops as [|op ops IH]; intros c w; [done|].
  cbn [forallb] in Hops. apply andb_true_iff in Hops as [Hop Hops].
  apply negb_true_iff in Hop. cbn [runOps].
  pose proof (runOp_memory fn options op c w Hop) as Hm.
  destruct (runOp fn options op c w) as [c1 w1]. cbn [fst] in Hm.
  by rewrite IH, Hm.
Qed.


Lemma runOp_isolated fn options op cA c w :
  isImport op = false →
  memory cA ∈ dom (heap w) →
  memory c ≠ memory cA →
  memory cA ∈ dom (heap (runOp fn options op c w).2) ∧
  memory (runOp fn options op c w).1 ≠ memory cA ∧
  cacheOf cA (runOp fn options op c w).2 = cacheOf cA w.
Proof.
  intros Hop Hdom Hne.
  destruct op as [key args|s| | |d]; try discriminate Hop; cbn [runOp]; [|done| |done].
  - pose proof (invoke_heap fn options key args c w) as [Hmem Hheap].
    destruct (memorizedFunction fn options key args c w) as [[r c'] w'].
    cbn [fst snd] in *. rewrite Hmem. unfold cacheOf.
    destruct Hheap as [->|[m ->]]; [done|].
    split; [|split; [done|]].
    + rewrite dom_insert_L. set_solver.
    + by rewrite lookup_total_insert_ne.
  - unfold clearMemory, mbind, M_bind, memoryFresh, orderReset, cacheOf, setHeap.
    cbn [fst snd memory heap].
    assert (Hfresh : fresh (dom (heap w)) ≠ memory cA).
    { intros Heq. rewrite <- Heq in Hdom. by apply is_fresh in Hdom. }
    split; [|split; [done|]].
    + rewrite dom_insert_L. set_solver.
    + by rewrite lookup_total_insert_ne.
Qed.

(** X11: wrappers do not share state on their own: whatever is done with a newly
    built wrapper, short of [importMemory], the cache of a wrapper that
    existed before is left exactly as it was. *)
Theorem wrappers_isolated fn options (ops : list Op) cA w :
  memory cA ∈ dom (heap w) →
  forallb (λ op, negb (isImport op)) ops = true →
  let built := withMemorized w in
  cacheOf cA (runOps fn options ops built.1 built.2).2 = cacheOf cA w.
Proof.
  intros Hdom Hops. cbv zeta.
  assert (Hstart : memory cA ∈ dom (heap (withMemorized w).2) ∧
                   memory (withMemorized w).1 ≠ memory cA ∧
                   cacheOf cA (withMemorized w).2 = cacheOf cA w).
  { unfold withMemorized, cacheOf, setHeap. cbn [fst snd memory heap].
    assert (Hfresh : fresh (dom (heap w)) ≠ memory cA).
    { intros Heq. rewrite <- Heq in Hdom. by apply is_fresh in Hdom. }
    split; [|split; [done|]].
    - rewrite dom_insert_L. set_solver.
    - by rewrite lookup_total_insert_ne. }
  destruct (withMemorized w) as [c1 w1]. cbn [fst snd] in *.
  destruct Hstart as (Hdom1 & Hne1 & <-). clear Hdom.
  revert c1 w1 Hdom1 Hne1. induction ops as [|op ops IH]; intros c1 w1 Hdom1 Hne1; [done|].
  cbn [forallb] in Hops. apply andb_true_iff in Hops as [Hop Hops].
  apply negb_true_iff in Hop. cbn [runOps].
  destruct (runOp_isolated fn options op cA c1 w1 Hop Hdom1 Hne1) as (Hdom2 & Hne2 & <-).
  destruct (runOp fn options op c1 w1) as [c2 w2]. cbn [fst snd] in *.
  by apply IH.
Qed.

End Frame.

(** ** Degenerate options and results *)

Section Degenerate.

Context {E : Type}.
Implicit Types (c : Closure) (w : World E) (fn : InputFunctionType E).
Implicit Types (options : MemorizeOptions) (key : string).

Lemma runOp_nothing fn options (N : Z) op c w :
  maxCacheSize options = Some (Fin N) →
  N < 0 →
  isImport op = false →
  isInvokeOf protoKey op = false →
  cacheOf c w = ∅ ∧ cacheOrder c = [] →
  cacheOf (runOp fn options op c w).1 (runOp fn options op c w).2 = ∅ ∧
  cacheOrder (runOp fn options op c w).1 = [].
Proof.
  intros HN Hneg Hop Hproto [Hcache Hlog].
  destruct op as [key args|s| | |d]; try discriminate Hop; cbn [runOp]; [|done| |done].
  - cbn [isInvokeOf] in Hproto. apply bool_decide_eq_false in Hproto.
    destruct (memorizedFunction_cases fn options key args c w)
      as [(v & _ & _ & Hrun)|[(_ & x & t & e & Hrun)|(Hget & v & c' & w' & Hrun)]];
      rewrite Hrun; cbn [fst snd]; [done..|].
    destruct (invoke_store _ _ _ _ _ _ _ _ _ Hget Hrun) as (_ & _ & _ & Hcase).
    cbv zeta in Hcase. rewrite Hlog, Hcache in Hcase. cbn [app hd tail] in Hcase.
    assert (overflows options [key] = true) as Hov.
    { apply (overflows_Fin options N _ HN). cbn [length]. lia. }
    rewrite Hov in Hcase. destruct Hcase as [-> ->].
    by rewrite obj_delete_insert_empty.
  - apply clearMemory_empty.
Qed.

(** X12: a negative [maxCacheSize] caches nothing: the guard of the eviction
    holds after every store, so each store is undone at once; as long as the
    key ["__proto__"] is never called, a wrapper built with such a bound has
    an empty cache and an empty order log after every operation, and each
    call runs the wrapped function. *)
Theorem negative_bound_caches_nothing fn (t : option number) (N : Z) (ops : list Op) w :
  N < 0 →
  forallb (λ op, negb (isImport op) && negb (isInvokeOf protoKey op)) ops = true →
  let options := {| ttl := t; maxCacheSize := Some (Fin N) |} in
  let built := withMemorized w in
  let final := runOps fn options ops built.1 built.2 in
  cacheOf final.1 final.2 = ∅ ∧
  cacheOrder final.1 = [] ∧
  ∀ key args,
    calls (memorizedFunction fn options key args final.1 final.2).2 =
    calls final.2 ++ [args].
Proof.
  intros Hneg Hops. cbv zeta.
  set (options := {| ttl := t; maxCacheSize := Some (Fin N) |}).
  destruct (withMemorized_logged w) as (_ & Hnil & Hempty).
  assert (Hfin : cacheOf (runOps fn options ops (withMemorized w).1 (withMemorized w).2).1
                   (runOps fn options ops (withMemorized w).1 (withMemorized w).2).2 = ∅ ∧
                 cacheOrder (runOps fn options ops (withMemorized w).1
                               (withMemorized w).2).1 = []).
  { destruct (withMemorized w) as [c1 w1]. cbn [fst snd] in *.
    revert c1 w1 Hnil Hempty.
    induction ops as [|op ops IH]; intros c1 w1 Hnil Hempty; [done|].
    cbn [forallb] in Hops. apply andb_true_iff in Hops as [Hop Hops].
    apply andb_true_iff in Hop as [Hop Hproto].
    apply negb_true_iff in Hop, Hproto. cbn [runOps].
    destruct (runOp_nothing fn options N op c1 w1 eq_refl Hneg Hop Hproto
                (conj Hempty Hnil)) as [Hc Hl].
    destruct (runOp fn options op c1 w1) as [c2 w2]. by apply IH. }
  destruct Hfin as [Hc Hl]. split; [done|]. split; [done|].
  intros key args. rewrite invoke_miss_calls; [done|].
  rewrite getCachedResult_eq, Hc. by rewrite obj_lookup_empty.
Qed.

(** X13: a wrapped function whose result is always [undefined] is never
    memorized: starting from a cache that holds no defined value under the
    key, every one of a sequence of calls for that key is fulfilled with
    [undefined] and runs the wrapped function, whatever the options. *)
Theorem undefined_never_memorized fn options key (argss : list (list JsValue)) c w :
  (∀ args t e, (fn args t e).1.1 = Fulfilled VUndefined) →
  (∀ r, cacheOf c w !! key = Some r → value r = VUndefined) →
  ∃ c' w',
    invokeEach fn options ((λ args, (key, args)) <$> argss) c w =
      (Fulfilled (replicate (length argss) VUndefined), c', w') ∧
    calls w' = calls w ++ argss.
Proof.
  intros Hfn. revert c w.
  induction argss as [|args argss IH]; intros c w Hinv.
  - exists c, w. by rewrite app_nil_r.
  - assert (Hget : getCachedResult key c w = (Fulfilled VUndefined, c, w)).
    { rewrite getCachedResult_eq. destruct (cacheOf c w !! key) as [r|] eqn:Hr; [|done].
      rewrite (Hinv r eq_refl). by destruct (gt _ _). }
    pose proof (Hfn args (clock w) (env w)) as Hres.
    destruct (fn args (clock w) (env w)) as [[res t] e] eqn:Hcall.
    cbn [fst] in Hres. subst res.
    pose proof (memorizedFunction_fulfilled fn options key args c w _ t e Hget Hcall)
      as Hrun.
    destruct (storeInCache options key VUndefined c (called args t e w))
      as [[u c1] w1] eqn:Hstore.
    destruct (invoke_store _ _ _ _ _ _ _ _ _ Hget Hrun) as (_ & _ & Hcalls & Hcase).
    cbv zeta in Hcase.
    destruct (IH c1 w1) as (c' & w' & Hrest & Hcalls').
    { intros r Hr.
      by rewrite (invoke_store_entry _ _ _ _ _ _ _ _ _ _ Hget Hrun Hr). }
    exists c', w'. split.
    + cbn [fmap list_fmap invokeEach length replicate].
      unfold mbind, M_bind, mret, M_ret. rewrite Hrun.
      change (list_fmap _ _ (λ args0, (key, args0)) argss)
        with ((λ args0, (key, args0)) <$> argss).
      by rewrite Hrest.
    + rewrite Hcalls', Hcalls, <- app_assoc. done.
Qed.

Lemma runOp_log_bounded fn options (N : Z) op c w :
  maxCacheSize options = Some (Fin N) →
  0 < N →
  Z.of_nat (length (cacheOrder c)) ≤ N →
  Z.of_nat (length (cacheOrder (runOp fn options op c w).1)) ≤ N.
Proof.
  intros HN Hpos Hlen.
  destruct op as [key args|s| | |d]; cbn [runOp]; [|done|done| |done].
  - destruct (memorizedFunction_cases fn options key args c w)
      as [(v & _ & _ & Hrun)|[(_ & x & t & e & Hrun)|(Hget & v & c' & w' & Hrun)]];
      rewrite Hrun; cbn [fst snd]; [done..|].
    destruct (invoke_store _ _ _ _ _ _ _ _ _ Hget Hrun) as (_ & _ & _ & Hcase).
    cbv zeta in Hcase.
    destruct (overflows options (cacheOrder c ++ [key])) eqn:Hov;
      destruct Hcase as [-> _].
    + destruct (cacheOrder c) as [|k rest]; cbn [app tail length] in *; [lia|].
      rewrite length_app. cbn [length] in *. lia.
    + destruct (decide (N < Z.of_nat (length (cacheOrder c ++ [key])))) as [Hlt|Hge]; [|lia].
      assert (overflows options (cacheOrder c ++ [key]) = true) as Htrue.
      { apply (overflows_Fin options N _ HN). split; [lia|done]. }
      congruence.
  - destruct (clearMemory_empty c w) as [_ Hl].
    destruct (clearMemory c w) as [[u c'] w']. cbn [fst snd] in *.
    rewrite Hl. cbn. lia.
Qed.

(** X14: the order log obeys [maxCacheSize = N > 0] on its own: from any state
    whose log holds at most [N] keys, every sequence of operations,
    [importMemory] included, leaves at most [N] keys in the log, however
    many entries the cache object holds. *)
Theorem order_log_bounded fn options (N : Z) (ops : list Op) c w :
  maxCacheSize options = Some (Fin N) →
  0 < N →
  Z.of_nat (length (cacheOrder c)) ≤ N →
  Z.of_nat (length (cacheOrder (runOps fn options ops c w).1)) ≤ N.
Proof.
  intros HN Hpos. revert c w. induction ops as [|op ops IH]; intros c w Hlen; [done|].
  cbn [runOps].
  pose proof (runOp_log_bounded fn options N op c w HN Hpos Hlen) as Hstep.
  destruct (runOp fn options op c w) as [c1 w1]. by apply IH.
Qed.

End Degenerate.

(** ** The further properties on concrete runs *)

Lemma miss_persists_witness :
  getCachedResult "b" c1 (elapse 5 w1) = (Fulfilled VUndefined, c1, elapse 5 w1).
Proof.
  apply (miss_persists "b" c1 w1 5); [lia | by vm_compute].
Defined.

Lemma rejection_retried_witness :
  ∃ w', memorizedFunction failing ttl10 "a" [] c0 w0 = (Rejected (VStr "boom"), c0, w') ∧
        calls (memorizedFunction failing ttl10 "a" two c0 (elapse 3 w')).2 =
        calls w0 ++ [[]; two].
Proof.
  apply (rejection_retried failing ttl10 "a" [] two c0 w0 (VStr "boom") 1 tt 3).
  - by vm_compute.
  - by vm_compute.
  - by vm_compute.
  - lia.
Defined.

Lemma expired_recomputes_witness :
  calls (memorizedFunction double ttl10 "a" two c1 (elapse 10 w1)).2 =
  calls w0 ++ [two; two].
Proof.
  apply (expired_recomputes double ttl10 10 "a" two two c0 w0 (VNum (Fin 4)) c1 w1 10).
  - reflexivity.
  - lia.
  - by vm_compute.
  - exact c1_w1_reached.
  - lia.
Defined.

Lemma clear_keeps_exported_witness :
  heap (clearMemory c1 w1).2 !!! 0%nat = cacheOf c1 w1 ∧
  memory (clearMemory c1 w1).1.2 ≠ 0%nat ∧
  cacheOf (clearMemory c1 w1).1.2 (clearMemory c1 w1).2 = ∅.
Proof.
  apply (clear_keeps_exported c1 w1 0%nat c1 w1).
  - apply (bool_decide_unpack _). by vm_compute.
  - reflexivity.
Defined.

Lemma invoke_frame_witness :
  memory (memorizedFunction double max2 "k4" two afterThree.1.2 afterThree.2).1.2 =
    memory afterThree.1.2 ∧
  cacheOf (memorizedFunction double max2 "k4" two afterThree.1.2 afterThree.2).1.2
          (memorizedFunction double max2 "k4" two afterThree.1.2 afterThree.2).2
    !! "k3"%string =
  cacheOf afterThree.1.2 afterThree.2 !! "k3"%string.
Proof.
  apply (invoke_frame double max2 "k4" two afterThree.1.2 afterThree.2 "k3").
  - done.
  - by vm_compute.
Defined.

Lemma unlogged_entry_survives_witness :
  let ops := [Invoke "b" two; Elapse 3; Invoke "c" two; ExportMemory] in
  let options := {| ttl := None; maxCacheSize := Some (Fin 1) |} in
  cacheOf (runOps double options ops cB wB).1 (runOps double options ops cB wB).2
    !! "a"%string =
  cacheOf cB wB !! "a"%string.
Proof.
  apply (unlogged_entry_survives double
           {| ttl := None; maxCacheSize := Some (Fin 1) |} "a" _ cB wB).
  - apply (bool_decide_unpack _). by vm_compute.
  - reflexivity.
Defined.

Lemma no_bound_never_removes_witness :
  let ops := [Elapse 50; Invoke "b" two; ExportMemory; Invoke "a" two] in
  let options := {| ttl := Some (Fin 10); maxCacheSize := Some (Fin 0) |} in
  is_Some (cacheOf (runOps double options ops c1 w1).1
                   (runOps double options ops c1 w1).2 !! "a"%string).
Proof.
  apply (no_bound_never_removes double
           {| ttl := Some (Fin 10); maxCacheSize := Some (Fin 0) |} "a" _ c1 w1).
  - reflexivity.
  - reflexivity.
  - vm_compute. by eexists.
Defined.

Lemma export_is_live_witness :
  let ops := [Invoke "b" two; Elapse 50; Invoke "a" two] in
  heap (runOps double ttl10max2 ops c1 w1).2 !!! 0%nat =
  cacheOf (runOps double ttl10max2 ops c1 w1).1 (runOps double ttl10max2 ops c1 w1).2.
Proof.
  apply (export_is_live double ttl10max2 _ c1 w1 0%nat c1 w1); reflexivity.
Defined.


Lemma wrappers_isolated_witness :
  let ops := [Invoke "a" [VNum (Fin 7)]; Invoke "b" two; ClearMemory; Invoke "a" two] in
  cacheOf c1 (runOps double max2 ops (withMemorized w1).1 (withMemorized w1).2).2 =
  cacheOf c1 w1.
Proof.
  apply (wrappers_isolated double max2 _ c1 w1).
  - apply (bool_decide_unpack _). by vm_compute.
  - reflexivity.
Defined.

Lemma negative_bound_caches_nothing_witness :
  let ops := [Invoke "a" two; Invoke "b" two; ExportMemory; Elapse 2] in
  let options := {| ttl := None; maxCacheSize := Some (Fin (-1)) |} in
  let final := runOps double options ops (withMemorized emptyWorld).1
                 (withMemorized emptyWorld).2 in
  cacheOf final.1 final.2 = ∅ ∧
  cacheOrder final.1 = [] ∧
  ∀ key args,
    calls (memorizedFunction double options key args final.1 final.2).2 =
    calls final.2 ++ [args].
Proof.
  apply (negative_bound_caches_nothing double None (-1) _ emptyWorld); [lia | reflexivity].
Defined.

Lemma undefined_never_memorized_witness :
  ∃ c' w',
    invokeEach noResult ttl10 ((λ args, ("a"%string, args)) <$> [[]; two; []]) c0 w0 =
      (Fulfilled (replicate 3 VUndefined), c', w') ∧
    calls w' = calls w0 ++ [[]; two; []].
Proof.
  apply (undefined_never_memorized noResult ttl10 "a" [[]; two; []] c0 w0).
  - done.
  - intros r Hr. by vm_compute in Hr.
Defined.

Lemma order_log_bounded_witness :
  let ops := [ImportMemory 0%nat; Invoke "b" two; Invoke "c" two; Invoke "d" two] in
  Z.of_nat (length (cacheOrder (runOps double max2 ops c1 w1).1)) ≤ 2.
Proof.
  apply (order_log_bounded double max2 2 _ c1 w1); [reflexivity | lia | by vm_compute].
Defined.

(** The key ["__proto__"] on the model, as on a plain object: the store
    installs the entry as prototype, the eviction shifts the key out of the
    log but [delete] removes nothing, so with [maxCacheSize: 1] the entry is
    still served after ["a"] was stored, while the object has one own
    property. *)
Example proto_key_survives_eviction :
  let options := {| ttl := None; maxCacheSize := Some (Fin 1) |} in
  let '(r, c, w) :=
    invokeEach double options
      [("__proto__"%string, two); ("a"%string, [VNum (Fin 3)])] c0 w0 in
  let '(r', c', w') := memorizedFunction double options "__proto__" two c w in
  r = Fulfilled [VNum (Fin 4); VNum (Fin 6)] ∧
  cacheOrder c = ["a"%string] ∧
  size (cacheOf c w) = 1%nat ∧
  r' = Fulfilled (VNum (Fin 4)) ∧
  length (calls w') = 2%nat.
Proof. by vm_compute. Qed.
